(** * Batched local Metropolis sampler (Sources/Sampler/metropolis_local_v2.cc)

    A shallow embedding of [netket::detail::Flipper] and
    [netket::MetropolisLocalV2], followed by the properties of the
    sampler that the specification states.

    Conventions of the embedding:
    - [double] values that are only stored, copied and compared (the local
      states and the configuration matrix) are IEEE-754 values
      ([spec_float]), compared with the IEEE comparison;
    - [double] values that go through [exp] (log-amplitudes, acceptance
      probabilities, the uniform reals) are idealised as real numbers;
    - [Index] is [Z]; [static_cast<int>] is written out as a wrap to 32 bits;
    - member functions are computations in a state monad whose results
      distinguish a normal return, a C++ exception and undefined behaviour
      (a violated precondition of the standard library or of Eigen). *)

From Stdlib Require Import ZArith List String Reals Lra Lia.
From Stdlib Require Import Floats.SpecFloat.
From stdpp Require Import base list pretty sorting.

Local Open Scope string_scope.
Local Open Scope Z_scope.

(** ** Scalars *)

(** [double] as used for site values. *)
Definition double : Type := spec_float.

(** [x < y] on doubles. *)
Definition dlt (x y : double) : bool := SFltb x y.

(** [x >= y] on doubles. *)
Definition dge (x y : double) : bool := SFleb y x.

(** [x == y] on doubles. *)
Definition deq (x y : double) : bool := SFeqb x y.

Definition dzero : double := S754_zero false.

(** [static_cast<int>(n)]: reduction modulo 2^32 into the signed range. *)
Definition to_int (n : Z) : Z := (n + 2 ^ 31) mod 2 ^ 32 - 2 ^ 31.

(** [std::complex<double>], idealised. *)
Definition complex : Type := (R * R)%type.

Definition real (z : complex) : R := fst z.

Definition csub (a b : complex) : complex :=
  ((fst a - fst b)%R, (snd a - snd b)%R).

Definition czero : complex := (0%R, 0%R).

(** [x < y] on idealised doubles, as a boolean. *)
Definition Rltb (x y : R) : bool := if Rlt_dec x y then true else false.

(** ** Results of a call *)

Inductive exn : Type :=
| InvalidInputError (msg : string)
| OracleError (msg : string).

Inductive outcome (A : Type) : Type :=
| Ok (a : A)
| Throw (e : exn)
| Undefined.

Arguments Ok {A} a.
Arguments Throw {A} e.
Arguments Undefined {A}.

(** ** State monad with exceptions

    The object outlives an exception, so the state is returned in every
    case. *)

Definition M (St A : Type) : Type := St -> outcome A * St.

Definition ret {St A} (a : A) : M St A := fun s => (Ok a, s).

Definition bind {St A B} (m : M St A) (k : A -> M St B) : M St B :=
  fun s =>
    match m s with
    | (Ok a, s') => k a s'
    | (Throw e, s') => (Throw e, s')
    | (Undefined, s') => (Undefined, s')
    end.

Definition get {St} : M St St := fun s => (Ok s, s).

Definition gets {St A} (f : St -> A) : M St A := fun s => (Ok (f s), s).

Definition put {St} (s : St) : M St unit := fun _ => (Ok tt, s).

Definition modify {St} (f : St -> St) : M St unit := fun s => (Ok tt, f s).

Definition throw {St A} (e : exn) : M St A := fun s => (Throw e, s).

Definition undefined {St A} : M St A := fun s => (Undefined, s).

(** A result computed without touching the state. *)
Definition of_outcome {St A} (o : outcome A) : M St A := fun s => (o, s).

(** [assert(b)] *)
Definition assert {St} (b : bool) : M St unit :=
  if b then ret tt else undefined.

Declare Scope monad_scope.
Delimit Scope monad_scope with monad.
Notation "'do' x <- m ; k" := (bind m (fun x => k))
  (at level 10, x name, m at level 100, k at level 200,
   format "'[v' 'do'  x  <-  m ; '/' k ']'") : monad_scope.
Notation "'do_' m ; k" := (bind m (fun _ => k))
  (at level 10, m at level 100, k at level 200,
   format "'[v' 'do_'  m ; '/' k ']'") : monad_scope.
Local Open Scope monad_scope.

(** Runs a computation on a component of the state. *)
Definition zoom {St T A} (proj : St -> T) (upd : T -> St -> St)
    (m : M T A) : M St A :=
  fun s => let '(r, t) := m (proj s) in (r, upd t s).

(** [for (auto j = lo; j < lo + n; ++j) body(j)] *)
Fixpoint for_loop {St} (n : nat) (j : Z) (body : Z -> M St unit)
    : M St unit :=
  match n with
  | O => ret tt
  | S n' => do_ body j; for_loop n' (j + 1) body
  end.

Definition for_range {St} (lo hi : Z) (body : Z -> M St unit) : M St unit :=
  for_loop (Z.to_nat (hi - lo)) lo body.

(** ** Containers *)

(** Element [i] of a [std::vector], an Eigen vector or a span; an index
    out of range is undefined behaviour. *)
Definition at_ {A} (l : list A) (i : Z) : outcome A :=
  if i <? 0 then Undefined
  else match l !! Z.to_nat i with
       | Some x => Ok x
       | None => Undefined
       end.

(** [l(i) = x] *)
Definition store {A} (l : list A) (i : Z) (x : A) : outcome (list A) :=
  if (0 <=? i) && (i <? Z.of_nat (length l))
  then Ok (<[Z.to_nat i := x]> l) else Undefined.

(** [RowMatrix<double>]: the list of its rows. *)
Abbreviation RowMatrix := (list (list double)).

Definition rows (x : RowMatrix) : Z := Z.of_nat (length x).

Definition cols (x : RowMatrix) : Z :=
  match x with
  | [] => 0
  | r :: _ => Z.of_nat (length r)
  end.

(** [x(i, j)] *)
Definition at2 (x : RowMatrix) (i j : Z) : outcome double :=
  match at_ x i with
  | Ok r => at_ r j
  | Throw e => Throw e
  | Undefined => Undefined
  end.

(** [x(i, j) = v] *)
Definition store2 (x : RowMatrix) (i j : Z) (v : double)
    : outcome RowMatrix :=
  if (0 <=? i) && (i <? rows x)
  then match x !! Z.to_nat i with
       | Some r =>
           match store r j v with
           | Ok r' => Ok (<[Z.to_nat i := r']> x)
           | Throw e => Throw e
           | Undefined => Undefined
           end
       | None => Undefined
       end
  else Undefined.

(** [std::sort(first, last)] with [operator<], as insertion into a sorted
    prefix. [std::sort] requires [operator<] to be a strict weak ordering
    on the elements (no NaN among them) and determines its result up to
    the order of equivalent elements; what is used of it below is that
    the result is a permutation of the input and, for distinct values
    without NaN, strictly ascending. *)
Fixpoint sort_insert (x : double) (l : list double) : list double :=
  match l with
  | [] => [x]
  | y :: l' => if dlt y x then y :: sort_insert x l' else x :: y :: l'
  end.

Definition sort (l : list double) : list double :=
  foldr sort_insert [] l.

(** ** Random source *)

(** Modelled from the spec: the random engine ([engine_], reached through
    [Generator()], both declared in the header that is not part of the
    sources) together with the standard distributions drawn from it:
    "a uniformly-seedable generator interface supporting: uniform integer
    draw in a closed range, uniform real draw in [0,1)". [uniform_int a b]
    is [std::uniform_int_distribution{a, b}], [uniform_real] is
    [std::uniform_real_distribution<double>{}]. *)
Class RandomSource (G : Type) : Type := {
  uniform_int : Z -> Z -> G -> Z * G;
  uniform_real : G -> R * G
}.

(** What the standard guarantees about the two distributions. *)
Record RandomSourceLaws (G : Type) `{RandomSource G} : Prop := {
  uniform_int_range :
    forall a b g, a <= b -> a <= (uniform_int a b g).1 <= b;
  uniform_real_range :
    forall g, (0 <= (uniform_real g).1 < 1)%R
}.

(** A deterministic source for running the model: a counter. *)
Definition counter_uniform_int (a b g : Z) : Z * Z :=
  (a + g mod (b - a + 1), g + 1).

Definition counter_uniform_real (g : Z) : R * Z := (0%R, g + 1).

#[export] Instance counter_source : RandomSource Z := {
  uniform_int := counter_uniform_int;
  uniform_real := counter_uniform_real
}.

(** ** Amplitude oracle *)

(** Modelled from the spec: the machine ([RbmSpinV2], not part of the
    sources). Only what the sampler consumes: the number of sites
    ([Nvisible()]), the local states of its Hilbert space
    ([GetHilbert().LocalStates()]) and the batched log-amplitude
    [LogVal(x, out, cache)], which fills [out] and may throw; when it
    throws, [out] is left in whatever state the call reached. *)
Record Machine : Type := {
  Nvisible : Z;
  LocalStates : list double;
  LogVal : RowMatrix -> list complex -> option exn * list complex
}.

(** A pure oracle: one log-amplitude per row, a function of that row. *)
Definition pure_oracle (psi : list double -> complex) (m : Machine) : Prop :=
  forall x out, LogVal m x out = (None, psi <$> x).

(** ** [detail::Flipper] *)

Module Flipper.
Section WithEngine.
Context {G : Type} `{RandomSource G}.

(** The data members. [proposed_] is a vector of [ConfDiff]s whose spans
    point at [sites_(j)] and [values_(j)]; it holds no data of its own and
    is the view [Read] below. *)
Record t : Type := Build {
  sites_ : list Z;
  values_ : list double;
  state_ : RowMatrix;
  local_states_ : list double;
  engine_ : G
}.

Definition set_sites (v : list Z) (f : t) : t :=
  Build v (values_ f) (state_ f) (local_states_ f) (engine_ f).

Definition set_values (v : list double) (f : t) : t :=
  Build (sites_ f) v (state_ f) (local_states_ f) (engine_ f).

Definition set_state (v : RowMatrix) (f : t) : t :=
  Build (sites_ f) (values_ f) v (local_states_ f) (engine_ f).

Definition set_engine (g : G) (f : t) : t :=
  Build (sites_ f) (values_ f) (state_ f) (local_states_ f) g.

(** Modelled from the spec: [BatchSize()] and [SystemSize()], defined in
    the header that is not part of the sources: "a dense matrix of real
    scalars, shape (batch_size × system_size)", the shape of [state_]. *)
Definition BatchSize (f : t) : Z := rows (state_ f).

Definition SystemSize (f : t) : Z := cols (state_ f).

(** [std::uniform_int_distribution<..>{a, b}(Generator())]; the
    distribution requires [a <= b]. *)
Definition draw_int (a b : Z) : M t Z :=
  fun f =>
    if b <? a then (Undefined, f)
    else let '(x, g) := uniform_int a b (engine_ f) in (Ok x, set_engine g f).

(** [std::uniform_real_distribution<double>{}(Generator())] *)
Definition draw_real : M t R :=
  fun f => let '(x, g) := uniform_real (engine_ f) in (Ok x, set_engine g f).

(** The lambda of [RandomState]: a local state at a uniform index. *)
Definition random_local_state : M t double :=
  do ls <- gets local_states_;
  do i <- draw_int 0 (to_int (Z.of_nat (length ls)) - 1);
  of_outcome (at_ ls i).

(** [state_(i, j) = v] *)
Definition write_state (i j : Z) (v : double) : M t unit :=
  do x <- gets state_;
  do x' <- of_outcome (store2 x i j v);
  modify (set_state x').

(** [std::generate] over [state_.data()]: the cells in row-major order. *)
Definition RandomState : M t unit :=
  do nr <- gets BatchSize;
  do nc <- gets SystemSize;
  for_range 0 nr (fun i =>
    for_range 0 nc (fun j =>
      do v <- random_local_state;
      write_state i j v)).

Definition write_site (j : Z) (v : Z) : M t unit :=
  do l <- gets sites_;
  do l' <- of_outcome (store l j v);
  modify (set_sites l').

Definition RandomSites : M t unit :=
  do n <- gets (fun f => Z.of_nat (length (sites_ f)));
  for_range 0 n (fun j =>
    do nc <- gets SystemSize;
    do v <- draw_int 0 (nc - 1);
    write_site j v).

(** The index shift of [RandomValues]: the value proposed for a chain
    whose proposed site currently holds [cur], from the drawn [idx]. *)
Definition shifted_value (ls : list double) (cur : double) (idx : Z)
    : outcome double :=
  match at_ ls idx with
  | Ok c => at_ ls (idx + (if dge c cur then 1 else 0))
  | Throw e => Throw e
  | Undefined => Undefined
  end.

(** The lambda [g] of [RandomValues]. *)
Definition propose_value (j : Z) : M t double :=
  do ls <- gets local_states_;
  do idx <- draw_int 0 (to_int (Z.of_nat (length ls)) - 2);
  do sites <- gets sites_;
  do site <- of_outcome (at_ sites j);
  do x <- gets state_;
  do cur <- of_outcome (at2 x j site);
  of_outcome (shifted_value ls cur idx).

Definition write_value (j : Z) (v : double) : M t unit :=
  do l <- gets values_;
  do l' <- of_outcome (store l j v);
  modify (set_values l').

Definition RandomValues : M t unit :=
  do n <- gets BatchSize;
  for_range 0 n (fun j =>
    do v <- propose_value j;
    write_value j v).

Definition Reset : M t unit :=
  do_ RandomState;
  do_ RandomSites;
  RandomValues.

(** The constructor. [resize] leaves the new coefficients unspecified;
    they are all overwritten by [Reset] before they are read. *)
Definition Flipper (shape : Z * Z) (local_states : list double) (g : G)
    : outcome t :=
  let '(batch_size, system_size) := shape in
  if batch_size <? 1 then
    Throw (InvalidInputError
             ("invalid batch size: " ++ pretty batch_size ++ "; expected >=1"))
  else if system_size <? 1 then
    Throw (InvalidInputError
             ("invalid system size: " ++ pretty system_size
              ++ "; expected >=1"))
  else if bool_decide (local_states = []) then
    Throw (InvalidInputError "invalid local states: []")
  else
    let f :=
      Build (replicate (Z.to_nat batch_size) 0)
            (replicate (Z.to_nat batch_size) dzero)
            (replicate (Z.to_nat batch_size)
                       (replicate (Z.to_nat system_size) dzero))
            (sort local_states)
            g in
    match Reset f with
    | (Ok _, f') => Ok f'
    | (Throw e, _) => Throw e
    | (Undefined, _) => Undefined
    end.

(** [Next(accept)] *)
Definition Next (accept : list bool) : M t unit :=
  do n <- gets BatchSize;
  do_ for_range 0 n (fun j =>
    do a <- of_outcome (at_ accept j);
    if (a : bool) then
      do sites <- gets sites_;
      do site <- of_outcome (at_ sites j);
      do values <- gets values_;
      do v <- of_outcome (at_ values j);
      write_state j site v
    else ret tt);
  do_ RandomSites;
  RandomValues.

(** [ConfDiff]: the sites changed and their new values. *)
Record ConfDiff : Type := {
  sites : list Z;
  values : list double
}.

(** [Read()]: chain [j]'s diff is the one-element spans at [sites_(j)]
    and [values_(j)]. *)
Definition Read (f : t) : list ConfDiff :=
  zip_with (fun s v => {| sites := [s]; values := [v] |})
           (sites_ f) (values_ f).

(** [Current()] *)
Definition Current (f : t) : RowMatrix := state_ f.

(** [Read(x)]: a const member; the state threaded here is the buffer [x]. *)
Definition Read_into (f : t) : M RowMatrix unit :=
  do x <- get;
  do_ assert ((rows x =? BatchSize f) && (cols x =? SystemSize f));
  do_ put (state_ f);
  let updates := Read f in
  for_range 0 (BatchSize f) (fun j =>
    do suggestion <- of_outcome (at_ updates j);
    do_ assert ((length (sites suggestion) =? 1)%nat
                && (length (values suggestion) =? 1)%nat);
    do site <- of_outcome (at_ (sites suggestion) 0);
    do v <- of_outcome (at_ (values suggestion) 0);
    do x <- get;
    do x' <- of_outcome (store2 x j site v);
    put x').

End WithEngine.
Arguments t G : clear implicits.
End Flipper.

(** [CheckBatchSize] *)
Definition CheckBatchSize (batch_size : Z) : outcome Z :=
  if batch_size <=? 0 then
    Throw (InvalidInputError
             ("invalid batch size: " ++ pretty batch_size
              ++ "; expected a positive number"))
  else Ok batch_size.

(** ** [MetropolisLocalV2] *)

Module MetropolisLocalV2.
Section WithEngine.
Context {G : Type} `{RandomSource G}.

(** The data members; [machine_] is a reference to the machine. *)
Record t : Type := Build {
  machine_ : Machine;
  flipper_ : Flipper.t G;
  proposed_X_ : RowMatrix;
  proposed_Y_ : list complex;
  current_Y_ : list complex;
  randoms_ : list R;
  accept_ : list bool
}.

Definition set_flipper (v : Flipper.t G) (s : t) : t :=
  Build (machine_ s) v (proposed_X_ s) (proposed_Y_ s) (current_Y_ s)
        (randoms_ s) (accept_ s).

Definition set_proposed_X (v : RowMatrix) (s : t) : t :=
  Build (machine_ s) (flipper_ s) v (proposed_Y_ s) (current_Y_ s)
        (randoms_ s) (accept_ s).

Definition set_proposed_Y (v : list complex) (s : t) : t :=
  Build (machine_ s) (flipper_ s) (proposed_X_ s) v (current_Y_ s)
        (randoms_ s) (accept_ s).

Definition set_current_Y (v : list complex) (s : t) : t :=
  Build (machine_ s) (flipper_ s) (proposed_X_ s) (proposed_Y_ s) v
        (randoms_ s) (accept_ s).

Definition set_randoms (v : list R) (s : t) : t :=
  Build (machine_ s) (flipper_ s) (proposed_X_ s) (proposed_Y_ s)
        (current_Y_ s) v (accept_ s).

Definition set_accept (v : list bool) (s : t) : t :=
  Build (machine_ s) (flipper_ s) (proposed_X_ s) (proposed_Y_ s)
        (current_Y_ s) (randoms_ s) v.

(** [machine_.LogVal(x, out, {})] with [out] one of the two members. *)
Definition call_LogVal (x : RowMatrix) (out : t -> list complex)
    (set_out : list complex -> t -> t) : M t unit :=
  fun s =>
    match LogVal (machine_ s) x (out s) with
    | (None, y) => (Ok tt, set_out y s)
    | (Some e, y) => (Throw e, set_out y s)
    end.

(** The constructor tagged [std::true_type]. *)
Definition MetropolisLocalV2_safe (machine : Machine) (batch_size : Z)
    (g : G) : outcome t :=
  match Flipper.Flipper (batch_size, Nvisible machine)
                        (LocalStates machine) g with
  | Ok f =>
      let n := Z.to_nat batch_size in
      let s :=
        Build machine f
              (replicate n (replicate (Z.to_nat (Nvisible machine)) dzero))
              (replicate n czero) (replicate n czero)
              (replicate n 0%R) (replicate n false) in
      match call_LogVal (Flipper.Current f) current_Y_ set_current_Y s with
      | (Ok _, s') => Ok s'
      | (Throw e, _) => Throw e
      | (Undefined, _) => Undefined
      end
  | Throw e => Throw e
  | Undefined => Undefined
  end.

(** The public constructor. *)
Definition MetropolisLocalV2 (machine : Machine) (batch_size : Z) (g : G)
    : outcome t :=
  match CheckBatchSize batch_size with
  | Ok b => MetropolisLocalV2_safe machine b g
  | Throw e => Throw e
  | Undefined => Undefined
  end.

Definition Reset : M t unit :=
  do_ zoom flipper_ set_flipper Flipper.Reset;
  do f <- gets flipper_;
  call_LogVal (Flipper.Current f) current_Y_ set_current_Y.

Definition Read (s : t) : RowMatrix * list complex :=
  (Flipper.Current (flipper_ s), current_Y_ s).

(** [(p - c).real().exp().square().min(1.0)] for one chain. *)
Definition acceptance (p c : complex) : R :=
  Rmin (Rsqr (exp (real (csub p c)))) 1.

(** Coefficient-wise expressions over three arrays; Eigen requires the
    operands to have the same size. *)
Definition zip_with3 {A B C D} (f : A -> B -> C -> D)
    (la : list A) (lb : list B) (lc : list C) : list D :=
  zip_with (fun a bc => f a (fst bc) (snd bc)) la (zip lb lc).

Definition same_size {A B C} (la : list A) (lb : list B) (lc : list C)
    : bool :=
  (length la =? length lb)%nat && (length lb =? length lc)%nat.

(** [std::generate] over [randoms_]. *)
Definition fill_randoms : M t unit :=
  do n <- gets (fun s => Z.of_nat (length (randoms_ s)));
  for_range 0 n (fun j =>
    do r <- zoom flipper_ set_flipper Flipper.draw_real;
    do l <- gets randoms_;
    do l' <- of_outcome (store l j r);
    modify (set_randoms l')).

Definition Next : M t unit :=
  do f <- gets flipper_;
  do_ zoom proposed_X_ set_proposed_X (Flipper.Read_into f);
  do x <- gets proposed_X_;
  do_ call_LogVal x proposed_Y_ set_proposed_Y;
  do_ fill_randoms;
  do s <- get;
  do_ assert (same_size (randoms_ s) (proposed_Y_ s) (current_Y_ s));
  do_ modify (set_accept
               (zip_with3 (fun r p c => Rltb r (acceptance p c))
                          (randoms_ s) (proposed_Y_ s) (current_Y_ s)));
  do s <- get;
  do_ assert (same_size (accept_ s) (proposed_Y_ s) (current_Y_ s));
  do_ modify (set_current_Y
               (zip_with3 (fun (a : bool) p c => if a then p else c)
                          (accept_ s) (proposed_Y_ s) (current_Y_ s)));
  do a <- gets accept_;
  zoom flipper_ set_flipper (Flipper.Next a).

End WithEngine.
Arguments t G : clear implicits.
End MetropolisLocalV2.

(** ** Specification vocabulary *)

#[export] Instance double_eq_dec : EqDecision double.
Proof. unfold double. solve_decision. Defined.

#[export] Instance exn_eq_dec : EqDecision exn.
Proof. solve_decision. Defined.

#[export] Instance outcome_eq_dec {A} `{EqDecision A} : EqDecision (outcome A).
Proof. solve_decision. Defined.

(** Sorted ascending without duplicates, for [operator<]. *)
Definition strictly_ascending (ls : list double) : Prop :=
  StronglySorted (fun x y => dlt x y = true) ls.

(** No two entries are equal for [operator==]. *)
Definition pairwise_distinct (ls : list double) : Prop :=
  forall i j x y, (i < j)%nat -> ls !! i = Some x -> ls !! j = Some y ->
                  deq x y = false.

(** The indices of [0, k-2] whose shifted value is [v]. *)
Definition draws_giving (ls : list double) (cur v : double) : list Z :=
  filter (fun idx => Flipper.shifted_value ls cur idx = Ok v)
         (seqZ 0 (Z.of_nat (length ls) - 1)).

(** The transformed index of the comment in [RandomValues]: positions
    from [p] on move up by one. *)
Definition skip (p idx : nat) : nat := if (idx <? p)%nat then idx else S idx.

(** The doubles 1.0 and -1.0. *)
Definition one : double := S754_finite false 4503599627370496 (-52).
Definition minus_one : double := S754_finite true 4503599627370496 (-52).

(** The computation returns normally from [s] and its result and final
    state satisfy [Q]. *)
Definition returns {St A} (m : M St A) (s : St) (Q : A -> St -> Prop)
    : Prop :=
  exists a s', m s = (Ok a, s') /\ Q a s'.

(** A [bs] x [ss] matrix. *)
Definition shaped (bs ss : nat) (x : RowMatrix) : Prop :=
  length x = bs /\ Forall (fun r => length r = ss) x.

(** Every coefficient is one of [ls]. *)
Definition within (ls : list double) (x : RowMatrix) : Prop :=
  Forall (Forall (fun v => v ∈ ls)) x.

(** Chain [j]'s proposal [v] comes from the index shift applied to the
    value its proposed site currently holds, for some index of the
    range drawn from. *)
Definition proposal_from (ls : list double) (x : RowMatrix) (sites : list Z)
    (j : nat) (v : double) : Prop :=
  exists (site : Z) (row : list double) (cur : double) (idx : Z),
    sites !! j = Some site /\ 0 <= site /\ x !! j = Some row
    /\ row !! Z.to_nat site = Some cur
    /\ 0 <= idx <= to_int (Z.of_nat (length ls)) - 2
    /\ Flipper.shifted_value ls cur idx = Ok v.

(** The alphabet sizes for which both integer draws have a non-empty
    range that stays inside the alphabet. *)
Definition alphabet_ok (ls : list double) : Prop :=
  2 <= to_int (Z.of_nat (length ls)) <= Z.of_nat (length ls).

(** Row [j] with chain [j]'s proposal applied. *)
Definition proposed_row {G} (f : Flipper.t G) (j : nat) (row : list double)
    : list double :=
  match Flipper.sites_ f !! j, Flipper.values_ f !! j with
  | Some site, Some v => <[Z.to_nat site := v]> row
  | _, _ => row
  end.

(** Row [j] after a commit with the mask [accept]. *)
Definition row_after {G} (accept : list bool) (f : Flipper.t G) (j : nat)
    (row : list double) : list double :=
  match accept !! j with
  | Some true => proposed_row f j row
  | _ => row
  end.

(** The representation invariant of a constructed [Flipper] for
    [bs] chains of [ss] sites over the stored alphabet [ls]. *)
Record wf {G} (bs ss : nat) (ls : list double) (f : Flipper.t G) : Prop := {
  wf_batch : (1 <= bs)%nat;
  wf_system : (1 <= ss)%nat;
  wf_alphabet : alphabet_ok ls;
  wf_local_states : Flipper.local_states_ f = ls;
  wf_state : shaped bs ss (Flipper.state_ f);
  wf_sites : length (Flipper.sites_ f) = bs;
  wf_values : length (Flipper.values_ f) = bs;
  wf_sites_range :
    Forall (fun s => 0 <= s < Z.of_nat ss) (Flipper.sites_ f);
  wf_within : within ls (Flipper.state_ f);
  wf_values_within : Forall (fun v => v ∈ ls) (Flipper.values_ f);
  wf_proposals :
    forall j v, Flipper.values_ f !! j = Some v ->
      proposal_from ls (Flipper.state_ f) (Flipper.sites_ f) j v
}.

(** The batch with every chain's proposal applied. *)
Definition proposed_matrix {G} (f : Flipper.t G) : RowMatrix :=
  imap (proposed_row f) (Flipper.state_ f).

(** The batch after a commit with the mask [accept]. *)
Definition committed {G} (accept : list bool) (f : Flipper.t G) : RowMatrix :=
  imap (row_after accept f) (Flipper.state_ f).

(** The computation raises no exception, whatever the state. *)
Definition no_throw {St A} (m : M St A) : Prop :=
  forall s e s', m s <> (Throw e, s').

(** The contract of [LogVal]'s output parameter: an [Eigen::Ref] cannot
    be resized, so a call on a batch with as many rows as [out] has
    entries leaves the size of [out] alone. *)
Definition LogVal_keeps_size (m : Machine) : Prop :=
  forall x out, length x = length out ->
                length (LogVal m x out).2 = length out.

(** [accept_.select(proposed_Y_, current_Y_)] for one chain. *)
Definition select (a : bool) (p c : complex) : complex := if a then p else c.

(** The representation invariant of a constructed sampler. *)
Record swf {G} (bs ss : nat) (ls : list double)
    (s : MetropolisLocalV2.t G) : Prop := {
  swf_oracle : LogVal_keeps_size (MetropolisLocalV2.machine_ s);
  swf_flipper : wf bs ss ls (MetropolisLocalV2.flipper_ s);
  swf_proposed_X : shaped bs ss (MetropolisLocalV2.proposed_X_ s);
  swf_proposed_Y : length (MetropolisLocalV2.proposed_Y_ s) = bs;
  swf_current_Y : length (MetropolisLocalV2.current_Y_ s) = bs;
  swf_randoms : length (MetropolisLocalV2.randoms_ s) = bs
}.

(** What a completed [Next] leaves behind, in terms of the state [s] it
    started from and the log-amplitudes [y] the oracle returned. *)
Record stepped {G} `{RandomSource G} (s : MetropolisLocalV2.t G)
    (y : list complex) (s' : MetropolisLocalV2.t G) : Prop := {
  stepped_machine :
    MetropolisLocalV2.machine_ s' = MetropolisLocalV2.machine_ s;
  stepped_proposed_X :
    MetropolisLocalV2.proposed_X_ s'
    = proposed_matrix (MetropolisLocalV2.flipper_ s);
  stepped_proposed_Y : MetropolisLocalV2.proposed_Y_ s' = y;
  stepped_randoms :
    Forall (fun r => (0 <= r < 1)%R) (MetropolisLocalV2.randoms_ s');
  stepped_randoms_size :
    length (MetropolisLocalV2.randoms_ s')
    = length (MetropolisLocalV2.randoms_ s);
  stepped_accept :
    MetropolisLocalV2.accept_ s'
    = MetropolisLocalV2.zip_with3
        (fun r p c => Rltb r (MetropolisLocalV2.acceptance p c))
        (MetropolisLocalV2.randoms_ s') y (MetropolisLocalV2.current_Y_ s);
  stepped_current_Y :
    MetropolisLocalV2.current_Y_ s'
    = MetropolisLocalV2.zip_with3 select
        (MetropolisLocalV2.accept_ s') y (MetropolisLocalV2.current_Y_ s);
  stepped_state :
    Flipper.state_ (MetropolisLocalV2.flipper_ s')
    = committed (MetropolisLocalV2.accept_ s') (MetropolisLocalV2.flipper_ s);
  stepped_local_states :
    Flipper.local_states_ (MetropolisLocalV2.flipper_ s')
    = Flipper.local_states_ (MetropolisLocalV2.flipper_ s);
  stepped_proposals :
    exists f1,
      Flipper.state_ f1
      = committed (MetropolisLocalV2.accept_ s')
                  (MetropolisLocalV2.flipper_ s)
      /\ (do_ Flipper.RandomSites; Flipper.RandomValues) f1
         = (Ok tt, MetropolisLocalV2.flipper_ s')
}.

(** The states a sampler built on machine [m] with [batch_size] chains
    can be observed in: after the constructor, and after any sequence of
    [Reset] and [Next] ([Read] does not change the state). The state
    after a call that throws is the state the exception left behind. *)
Inductive reachable {G} `{RandomSource G} (m : Machine) (batch_size : Z)
    : MetropolisLocalV2.t G -> Prop :=
| reachable_new (g : G) (s : MetropolisLocalV2.t G) :
    MetropolisLocalV2.MetropolisLocalV2 m batch_size g = Ok s ->
    reachable m batch_size s
| reachable_Reset (s : MetropolisLocalV2.t G) :
    reachable m batch_size s ->
    reachable m batch_size (MetropolisLocalV2.Reset s).2
| reachable_Next (s : MetropolisLocalV2.t G) :
    reachable m batch_size s ->
    reachable m batch_size (MetropolisLocalV2.Next s).2.

(** Invariant I2: the cached log-amplitudes are the oracle's values on
    the current rows. *)
Definition cache_consistent {G} (psi : list double -> complex)
    (s : MetropolisLocalV2.t G) : Prop :=
  MetropolisLocalV2.current_Y_ s
  = psi <$> Flipper.state_ (MetropolisLocalV2.flipper_ s).

(** ** Concrete instances for running the model *)

(** A machine on two spin-1/2 sites whose oracle is the pure function
    that is 0 everywhere. *)
Definition zero_machine : Machine := {|
  Nvisible := 2;
  LocalStates := [one; minus_one];
  LogVal := fun x _ => (None, (fun _ => czero) <$> x)
|}.

(** A machine on one spin-1/2 site whose oracle throws on every batch
    whose first coefficient is positive. *)
Definition picky_machine : Machine := {|
  Nvisible := 1;
  LocalStates := [minus_one; one];
  LogVal := fun x out =>
    match x with
    | (S754_finite false _ _ :: _) :: _ =>
        (Some (OracleError "positive spin"), out)
    | _ => (None, (fun _ => czero) <$> x)
    end
|}.

(** The body of the loop of [Flipper::Next], for chain [j]. *)
Definition commit_chain {G} (accept : list bool) (j : Z)
    : M (Flipper.t G) unit :=
  do a <- of_outcome (at_ accept j);
  if (a : bool) then
    do sites <- gets Flipper.sites_;
    do site <- of_outcome (at_ sites j);
    do values <- gets Flipper.values_;
    do v <- of_outcome (at_ values j);
    Flipper.write_state j site v
  else ret tt.

(** * Properties *)

(** ** Rules for [returns] *)

Lemma returns_ret {St A} (a : A) (s : St) (Q : A -> St -> Prop) :
  Q a s -> returns (ret a) s Q.
Proof. intros. by exists a, s. Qed.

Lemma returns_bind {St A B} (m : M St A) (k : A -> M St B) (s : St)
    (Q : B -> St -> Prop) :
  returns m s (fun a s' => returns (k a) s' Q) -> returns (bind m k) s Q.
Proof.
  intros (a & s' & E & b & s'' & E' & HQ). exists b, s''.
  split; [|done]. unfold bind. by rewrite E.
Qed.

Lemma returns_mono {St A} (m : M St A) (s : St) (Q Q' : A -> St -> Prop) :
  returns m s Q -> (forall a s', Q a s' -> Q' a s') -> returns m s Q'.
Proof. intros (a & s' & E & HQ) HQQ. exists a, s'. auto. Qed.

Lemma returns_get {St} (s : St) (Q : St -> St -> Prop) :
  Q s s -> returns get s Q.
Proof. intros. by exists s, s. Qed.

Lemma returns_gets {St A} (f : St -> A) (s : St) (Q : A -> St -> Prop) :
  Q (f s) s -> returns (gets f) s Q.
Proof. intros. by exists (f s), s. Qed.

Lemma returns_put {St} (s s1 : St) (Q : unit -> St -> Prop) :
  Q tt s1 -> returns (put s1) s Q.
Proof. intros. by exists tt, s1. Qed.

Lemma returns_modify {St} (f : St -> St) (s : St) (Q : unit -> St -> Prop) :
  Q tt (f s) -> returns (modify f) s Q.
Proof. intros. by exists tt, (f s). Qed.

Lemma returns_of_outcome {St A} (o : outcome A) (a : A) (s : St)
    (Q : A -> St -> Prop) :
  o = Ok a -> Q a s -> returns (of_outcome o) s Q.
Proof. intros -> HQ. by exists a, s. Qed.

Lemma returns_assert {St} (b : bool) (s : St) (Q : unit -> St -> Prop) :
  b = true -> Q tt s -> returns (assert b) s Q.
Proof. intros -> HQ. by exists tt, s. Qed.

Lemma returns_zoom {St T A} (proj : St -> T) (upd : T -> St -> St)
    (m : M T A) (s : St) (Q : A -> St -> Prop) :
  returns m (proj s) (fun a t => Q a (upd t s)) ->
  returns (zoom proj upd m) s Q.
Proof.
  intros (a & t & E & HQ). exists a, (upd t s). split; [|done].
  unfold zoom. by rewrite E.
Qed.

Lemma returns_for_loop {St} (I : Z -> St -> Prop) (n : nat) (j : Z)
    (body : Z -> M St unit) (s : St) :
  I j s ->
  (forall i s1, j <= i < j + Z.of_nat n -> I i s1 ->
     returns (body i) s1 (fun _ s2 => I (i + 1) s2)) ->
  returns (for_loop n j body) s (fun _ s' => I (j + Z.of_nat n) s').
Proof.
  revert j s. induction n as [|n IH]; intros j s HI Hbody.
  - apply returns_ret. by rewrite Z.add_0_r.
  - simpl for_loop. apply returns_bind.
    eapply returns_mono; [apply Hbody; [lia | done]|].
    intros [] s1 HI1. simpl.
    eapply returns_mono.
    + apply IH; [exact HI1|]. intros i s2 Hi. apply Hbody. lia.
    + intros [] s2 HI2. simpl in HI2.
      by replace (j + 1 + Z.of_nat n) with (j + Z.of_nat (S n)) in HI2 by lia.
Qed.

Lemma returns_for_range {St} (I : Z -> St -> Prop) (lo hi : Z)
    (body : Z -> M St unit) (s : St) :
  lo <= hi -> I lo s ->
  (forall i s1, lo <= i < hi -> I i s1 ->
     returns (body i) s1 (fun _ s2 => I (i + 1) s2)) ->
  returns (for_range lo hi body) s (fun _ s' => I hi s').
Proof.
  intros Hle HI Hbody. unfold for_range.
  eapply returns_mono.
  - apply (returns_for_loop I); [done|]. intros i s1 Hi. apply Hbody. lia.
  - intros [] s' HI'. simpl in HI'.
    by replace (lo + Z.of_nat (Z.to_nat (hi - lo))) with hi in HI' by lia.
Qed.

Lemma bind_Ok {St A B} (m : M St A) (k : A -> M St B) (s s' : St) (a : A) :
  m s = (Ok a, s') -> bind m k s = k a s'.
Proof. intros E. unfold bind. by rewrite E. Qed.

Lemma bind_Ok_inv {St A B} (m : M St A) (k : A -> M St B) (s s' : St)
    (b : B) :
  bind m k s = (Ok b, s') ->
  exists a s1, m s = (Ok a, s1) /\ k a s1 = (Ok b, s').
Proof.
  unfold bind. destruct (m s) as [[a|e|] s1]; try done.
  intros E. by exists a, s1.
Qed.

Lemma returns_eq {St A} (m : M St A) (s : St) (Q : A -> St -> Prop) :
  returns m s Q -> exists a s', m s = (Ok a, s') /\ Q a s'.
Proof. done. Qed.

Lemma store_Ok {A} (l : list A) (i : Z) (x : A) :
  0 <= i < Z.of_nat (length l) -> store l i x = Ok (<[Z.to_nat i := x]> l).
Proof.
  intros Hi. unfold store.
  destruct (Z.leb_spec 0 i); [|lia].
  destruct (Z.ltb_spec i (Z.of_nat (length l))); [done|lia].
Qed.

Lemma store2_Ok (x : RowMatrix) (i j : Z) (r : list double) (v : double) :
  0 <= i -> x !! Z.to_nat i = Some r -> 0 <= j < Z.of_nat (length r) ->
  store2 x i j v = Ok (<[Z.to_nat i := <[Z.to_nat j := v]> r]> x).
Proof.
  intros Hi Hr Hj. unfold store2, rows.
  pose proof (lookup_lt_Some _ _ _ Hr).
  destruct (Z.leb_spec 0 i); [|lia].
  destruct (Z.ltb_spec i (Z.of_nat (length x))); [|lia].
  simpl. rewrite Hr. by rewrite store_Ok.
Qed.

(** ** Loops: extensionality and splitting *)

Lemma for_loop_ext {St} (n : nat) (j : Z) (body body' : Z -> M St unit)
    (s : St) :
  (forall i s1, j <= i < j + Z.of_nat n -> body i s1 = body' i s1) ->
  for_loop n j body s = for_loop n j body' s.
Proof.
  revert j s. induction n as [|n IH]; intros j s Hext; [done|].
  simpl. unfold bind. rewrite Hext by lia.
  destruct (body' j s) as [[[]|e|] s1]; try done.
  apply IH. intros i s2 Hi. apply Hext. lia.
Qed.

Lemma for_loop_app {St} (n1 n2 : nat) (j : Z) (body : Z -> M St unit)
    (s : St) :
  for_loop (n1 + n2) j body s
  = bind (for_loop n1 j body)
         (fun _ => for_loop n2 (j + Z.of_nat n1) body) s.
Proof.
  revert j s. induction n1 as [|n1 IH]; intros j s.
  - simpl. unfold bind, ret. by rewrite Z.add_0_r.
  - replace (j + Z.of_nat (S n1)) with (j + 1 + Z.of_nat n1) by lia.
    simpl. unfold bind.
    destruct (body j s) as [[[]|e|] s1]; [apply IH | done | done].
Qed.

Lemma at_take {A} (l : list A) (n : nat) (j : Z) :
  0 <= j < Z.of_nat n -> at_ (take n l) j = at_ l j.
Proof.
  intros Hj. unfold at_. destruct (Z.ltb_spec j 0); [lia|].
  by rewrite lookup_take_lt by lia.
Qed.

Lemma at_app_l {A} (l l' : list A) (j : Z) :
  0 <= j < Z.of_nat (length l) -> at_ (l ++ l') j = at_ l j.
Proof.
  intros Hj. unfold at_. destruct (Z.ltb_spec j 0); [lia|].
  by rewrite lookup_app_l by lia.
Qed.

Lemma at_beyond {A} (l : list A) (j : Z) :
  Z.of_nat (length l) <= j -> at_ l j = Undefined.
Proof.
  intros Hj. unfold at_. destruct (Z.ltb_spec j 0); [done|].
  by rewrite (proj2 (lookup_ge_None l (Z.to_nat j))) by lia.
Qed.

(** ** Order on doubles *)

Ltac cmp_cases :=
  repeat match goal with
  | |- context [Pos.compare_cont Eq ?p ?q] =>
      change (Pos.compare_cont Eq p q) with (Pos.compare p q);
      destruct (Pos.compare_spec p q)
  | H : context [Pos.compare_cont Eq ?p ?q] |- _ =>
      change (Pos.compare_cont Eq p q) with (Pos.compare p q) in H;
      destruct (Pos.compare_spec p q)
  | |- context [Z.compare ?a ?b] => destruct (Z.compare_spec a b)
  | H : context [Z.compare ?a ?b] |- _ => destruct (Z.compare_spec a b)
  end.

Ltac float_cases :=
  unfold dlt, dge, deq, SFltb, SFleb, SFeqb, SFcompare;
  repeat match goal with
  | x : double |- _ => destruct x
  | x : spec_float |- _ => destruct x
  | b : bool |- _ => destruct b
  end;
  simpl; intros; try done; cmp_cases; simpl in *; subst;
  try done; try congruence; try lia.

Lemma dlt_trans x y z : dlt x y = true -> dlt y z = true -> dlt x z = true.
Proof. float_cases. Qed.

Lemma dlt_not_dge x y : dlt x y = true -> dge x y = false.
Proof. float_cases. Qed.

Lemma dlt_dge x y : dlt x y = true -> dge y x = true.
Proof. float_cases. Qed.

Lemma dlt_neq x y : dlt x y = true -> deq x y = false /\ deq y x = false.
Proof. float_cases. Qed.

Lemma dlt_irrefl x : dlt x x = false.
Proof. float_cases. Qed.

Lemma dge_refl x : x <> S754_nan -> dge x x = true.
Proof. float_cases. Qed.

Lemma dlt_not_nan x y : dlt x y = true -> x <> S754_nan /\ y <> S754_nan.
Proof. float_cases. Qed.

(** ** The index shift of [RandomValues] *)

Lemma at_Ok {A} (l : list A) (i : Z) (x : A) :
  at_ l i = Ok x <-> 0 <= i /\ l !! Z.to_nat i = Some x.
Proof.
  unfold at_. destruct (Z.ltb_spec i 0).
  - split; [done | lia].
  - destruct (l !! Z.to_nat i) eqn:E; split; intros; try done.
    + split; [lia | congruence].
    + destruct H0. congruence.
    + destruct H0. congruence.
Qed.

Lemma at_of_nat {A} (l : list A) (i : nat) (x : A) :
  l !! i = Some x -> at_ l (Z.of_nat i) = Ok x.
Proof. intros. apply at_Ok. rewrite Nat2Z.id. split; [lia | done]. Qed.

Lemma ascending_lookup_lt (ls : list double) (i j : nat) (x y : double) :
  strictly_ascending ls ->
  (i < j)%nat -> ls !! i = Some x -> ls !! j = Some y -> dlt x y = true.
Proof.
  intros Hasc. revert i j.
  induction Hasc as [|a l Hl IH Ha]; intros i j Hij Hi Hj; [done|].
  destruct j as [|j]; [lia|]. simpl in Hj. destruct i as [|i]; simpl in Hi.
  - inversion Hi; subst. rewrite Forall_forall in Ha.
    apply Ha. eapply list_elem_of_lookup_2; eauto.
  - apply (IH i j); [lia | done | done].
Qed.

Section Ascending.
Variable ls : list double.
Hypothesis Hasc : strictly_ascending ls.

Lemma ascending_lookup_inj (i j : nat) (x : double) :
  ls !! i = Some x -> ls !! j = Some x -> i = j.
Proof using Hasc.
  intros Hi Hj. destruct (Nat.lt_trichotomy i j) as [Hlt|[Heq|Hgt]]; [|done|].
  - pose proof (ascending_lookup_lt _ _ _ _ _ Hasc Hlt Hi Hj) as E.
    rewrite dlt_irrefl in E. done.
  - pose proof (ascending_lookup_lt _ _ _ _ _ Hasc Hgt Hj Hi) as E.
    rewrite dlt_irrefl in E. done.
Qed.

Lemma ascending_not_nan (x : double) :
  (2 <= length ls)%nat -> x ∈ ls -> x <> S754_nan.
Proof using Hasc.
  intros Hlen [p Hp]%list_elem_of_lookup_1.
  destruct p as [|p].
  - destruct (lookup_lt_is_Some_2 ls 1%nat) as [y Hy]; [lia|].
    eapply (dlt_not_nan x y), (ascending_lookup_lt ls 0 1); eauto.
  - destruct (lookup_lt_is_Some_2 ls 0%nat) as [y Hy]; [lia|].
    eapply (dlt_not_nan y x), (ascending_lookup_lt ls 0 (S p)); eauto. lia.
Qed.

Lemma shifted_value_skip (p idx : nat) (cur : double) :
  ls !! p = Some cur -> (S idx < length ls)%nat ->
  exists v, ls !! skip p idx = Some v
            /\ Flipper.shifted_value ls cur (Z.of_nat idx) = Ok v.
Proof using Hasc.
  intros Hp Hidx.
  destruct (lookup_lt_is_Some_2 ls idx) as [c Hc]; [lia|].
  destruct (lookup_lt_is_Some_2 ls (S idx)) as [c' Hc']; [lia|].
  unfold Flipper.shifted_value, skip. rewrite (at_of_nat _ _ _ Hc).
  destruct (Nat.ltb_spec idx p) as [Hlt|Hge].
  - exists c. split; [done|].
    rewrite (dlt_not_dge c cur) by eauto using ascending_lookup_lt.
    rewrite Z.add_0_r. by apply at_of_nat.
  - exists c'. split; [done|].
    assert (dge c cur = true) as ->.
    { destruct (decide (idx = p)) as [->|Hne].
      - assert (c = cur) as -> by congruence.
        apply dge_refl, ascending_not_nan; [lia|].
        eapply list_elem_of_lookup_2; eauto.
      - apply dlt_dge. apply (ascending_lookup_lt ls p idx); auto. lia. }
    replace (Z.of_nat idx + 1) with (Z.of_nat (S idx)) by lia.
    by apply at_of_nat.
Qed.

End Ascending.

Lemma skip_ne (p idx : nat) : skip p idx <> p.
Proof. unfold skip. destruct (Nat.ltb_spec idx p); lia. Qed.

Lemma skip_inj (p i i' : nat) : skip p i = skip p i' -> i = i'.
Proof.
  unfold skip. destruct (Nat.ltb_spec i p), (Nat.ltb_spec i' p); lia.
Qed.

Lemma skip_surj (p q : nat) :
  q <> p -> exists idx, skip p idx = q /\ (idx < q \/ idx = q /\ q < p)%nat.
Proof.
  intros Hq. destruct (Nat.ltb_spec q p).
  - exists q. unfold skip. destruct (Nat.ltb_spec q p); lia.
  - exists (pred q). unfold skip. destruct (Nat.ltb_spec (pred q) p); lia.
Qed.

Lemma shifted_value_lookup (ls : list double) (p : nat) (cur v : double)
    (idx : Z) :
  strictly_ascending ls -> ls !! p = Some cur ->
  0 <= idx <= Z.of_nat (length ls) - 2 ->
  Flipper.shifted_value ls cur idx = Ok v
  <-> ls !! skip p (Z.to_nat idx) = Some v.
Proof.
  intros Hasc Hp Hidx.
  destruct (shifted_value_skip ls Hasc p (Z.to_nat idx) cur Hp) as (w & Hw & E);
    [lia|].
  rewrite Z2Nat.id in E by lia. rewrite E, Hw. split; congruence.
Qed.

Lemma filter_singleton {A} `{EqDecision A} (P : A -> Prop)
    `{forall x, Decision (P x)} (l : list A) (x0 : A) :
  NoDup l -> x0 ∈ l -> (forall x, x ∈ l -> P x <-> x = x0) ->
  length (filter P l) = 1%nat.
Proof.
  intros Hnd Hin HP.
  assert (filter P l ≡ₚ [x0]) as ->; [|done].
  apply NoDup_Permutation.
  - by apply NoDup_filter.
  - apply NoDup_singleton.
  - intros x. rewrite list_elem_of_filter, list_elem_of_singleton.
    split.
    + intros [HPx Hx]. by apply HP.
    + intros ->. split; [by apply HP | done].
Qed.

(** A drawn index gives an alphabet value other than the current one. *)
Lemma shifted_value_differs (ls : list double) (cur : double) (idx : Z) :
  strictly_ascending ls -> cur ∈ ls ->
  0 <= idx <= Z.of_nat (length ls) - 2 ->
  exists v, Flipper.shifted_value ls cur idx = Ok v
            /\ v ∈ ls /\ v <> cur /\ deq v cur = false.
Proof.
  intros Hasc [p Hp]%list_elem_of_lookup_1 Hidx.
  destruct (shifted_value_skip ls Hasc p (Z.to_nat idx) cur Hp)
    as (v & Hv & E); [lia|].
  rewrite Z2Nat.id in E by lia. exists v.
  pose proof (skip_ne p (Z.to_nat idx)) as Hne.
  split; [done|]. split; [by eapply list_elem_of_lookup_2|].
  destruct (Nat.lt_trichotomy (skip p (Z.to_nat idx)) p) as [Hlt|[Heq|Hgt]];
    [|done|].
  - pose proof (ascending_lookup_lt ls _ _ _ _ Hasc Hlt Hv Hp) as Hd.
    split; [|exact (proj1 (dlt_neq _ _ Hd))].
    intros ->. by rewrite dlt_irrefl in Hd.
  - pose proof (ascending_lookup_lt ls _ _ _ _ Hasc Hgt Hp Hv) as Hd.
    split; [|exact (proj2 (dlt_neq _ _ Hd))].
    intros ->. by rewrite dlt_irrefl in Hd.
Qed.

(** C1: on an alphabet that is sorted ascending without duplicates, has
    k >= 2 values and contains the current value, the index shift of
    RandomValues, idx -> alphabet[idx + (alphabet[idx] >= current)], is
    a bijection from the drawn indices 0..k-2 onto the alphabet values
    other than the current one: every index gives an alphabet value
    different from the current one, distinct indices give distinct
    values, every other value is reached, and each of them by exactly
    one of the k-1 equally likely indices, so a uniform index gives a
    uniform value. *)
Theorem shifted_value_bijection (ls : list double) (cur : double) :
  strictly_ascending ls -> (2 <= length ls)%nat -> cur ∈ ls ->
  let k := Z.of_nat (length ls) in
  (forall idx, 0 <= idx <= k - 2 ->
     exists v, Flipper.shifted_value ls cur idx = Ok v
               /\ v ∈ ls /\ v <> cur /\ deq v cur = false)
  /\ (forall i i' v, 0 <= i <= k - 2 -> 0 <= i' <= k - 2 ->
        Flipper.shifted_value ls cur i = Ok v ->
        Flipper.shifted_value ls cur i' = Ok v -> i = i')
  /\ (forall v, v ∈ ls -> v <> cur ->
        exists idx, 0 <= idx <= k - 2
                    /\ Flipper.shifted_value ls cur idx = Ok v)
  /\ length (seqZ 0 (k - 1)) = (length ls - 1)%nat
  /\ (forall v, v ∈ ls -> v <> cur ->
        length (draws_giving ls cur v) = 1%nat).
Proof.
  intros Hasc Hlen Hcur k. pose proof Hcur as [p Hp]%list_elem_of_lookup_1.
  assert (Hsurj : forall v, v ∈ ls -> v <> cur ->
            exists idx, 0 <= idx <= k - 2
                        /\ Flipper.shifted_value ls cur idx = Ok v).
  { intros v [q Hq]%list_elem_of_lookup_1 Hv.
    assert (q <> p) as Hqp by congruence.
    destruct (skip_surj p q Hqp) as (idx & Hs & Hb).
    pose proof (lookup_lt_Some _ _ _ Hq). pose proof (lookup_lt_Some _ _ _ Hp).
    exists (Z.of_nat idx). split; [subst k; lia|].
    apply (shifted_value_lookup ls p); [done | done | lia |].
    by rewrite Nat2Z.id, Hs. }
  assert (Hinj : forall i i' v, 0 <= i <= k - 2 -> 0 <= i' <= k - 2 ->
            Flipper.shifted_value ls cur i = Ok v ->
            Flipper.shifted_value ls cur i' = Ok v -> i = i').
  { intros i i' v Hi Hi' E E'.
    apply (shifted_value_lookup ls p) in E, E'; try done.
    pose proof (ascending_lookup_inj ls Hasc _ _ _ E E') as Hs.
    apply skip_inj in Hs. lia. }
  split; [|split; [done | split; [done | split]]].
  - intros idx Hidx. by apply shifted_value_differs.
  - rewrite length_seqZ. subst k. lia.
  - intros v Hv Hne. unfold draws_giving.
    destruct (Hsurj v Hv Hne) as (idx0 & Hidx0 & E0).
    apply (filter_singleton _ _ idx0).
    + apply NoDup_seqZ.
    + apply elem_of_seqZ. subst k. lia.
    + intros x Hx%elem_of_seqZ. split.
      * intros E. apply (Hinj x idx0 v); [subst k; lia | done | done | done].
      * by intros ->.
Qed.

Lemma shifted_value_bijection_witness :
  strictly_ascending [minus_one; one]
  /\ (2 <= length [minus_one; one])%nat
  /\ one ∈ [minus_one; one]
  /\ Flipper.shifted_value [minus_one; one] one 0 = Ok minus_one
  /\ length (draws_giving [minus_one; one] one minus_one) = 1%nat.
Proof.
  assert (Hasc : strictly_ascending [minus_one; one]).
  { repeat constructor. }
  assert (Hlen : (2 <= length [minus_one; one])%nat) by (simpl; lia).
  assert (Hin : one ∈ [minus_one; one]).
  { apply list_elem_of_In. simpl. auto. }
  pose proof (shifted_value_bijection [minus_one; one] one Hasc Hlen Hin)
    as (_ & _ & _ & _ & Hcount).
  split; [exact Hasc|]. split; [exact Hlen|]. split; [exact Hin|].
  split; [reflexivity|].
  apply Hcount.
  - apply list_elem_of_In. simpl. auto.
  - discriminate.
Defined.

(** ** The operations of [Flipper] on a well-shaped object *)

Lemma shaped_cols (bs ss : nat) (x : RowMatrix) :
  shaped bs ss x -> (1 <= bs)%nat -> cols x = Z.of_nat ss.
Proof.
  intros [Hlen Hrows] Hbs. destruct x as [|r x]; simpl in *; [lia|].
  apply Forall_cons in Hrows as [-> _]. done.
Qed.

Lemma shaped_rows (bs ss : nat) (x : RowMatrix) :
  shaped bs ss x -> rows x = Z.of_nat bs.
Proof. intros [Hlen _]. unfold rows. by rewrite Hlen. Qed.

Lemma shaped_lookup (bs ss : nat) (x : RowMatrix) (i : nat) :
  shaped bs ss x -> (i < bs)%nat ->
  exists r, x !! i = Some r /\ length r = ss.
Proof.
  intros [Hlen Hrows] Hi.
  destruct (lookup_lt_is_Some_2 x i) as [r Hr]; [lia|].
  exists r. split; [done|]. by eapply (Forall_lookup_1 _ _ _ _ Hrows).
Qed.

Lemma shaped_insert (bs ss : nat) (x : RowMatrix) (i : nat)
    (r : list double) :
  shaped bs ss x -> length r = ss -> shaped bs ss (<[i := r]> x).
Proof.
  intros [Hlen Hrows] Hr. split.
  - by rewrite length_insert.
  - by apply Forall_insert.
Qed.

Lemma matrix_eq_imap (g : nat -> list double -> list double)
    (x x' : RowMatrix) :
  length x' = length x ->
  (forall j row, x !! j = Some row -> x' !! j = Some (g j row)) ->
  x' = imap g x.
Proof.
  intros Hlen Hrows. apply list_eq. intros j. rewrite list_lookup_imap.
  destruct (x !! j) as [row|] eqn:E; simpl.
  - by apply Hrows.
  - apply lookup_ge_None. apply lookup_ge_None in E. lia.
Qed.

Section FlipperOps.
Context {G : Type} `{RandomSource G} (Hlaws : RandomSourceLaws G).
Implicit Types (f : Flipper.t G) (ls : list double).

Lemma draw_int_returns (a b : Z) f (Q : Z -> Flipper.t G -> Prop) :
  a <= b ->
  (forall x g, a <= x <= b -> Q x (Flipper.set_engine g f)) ->
  returns (Flipper.draw_int a b) f Q.
Proof using Hlaws.
  intros Hab HQ. unfold returns, Flipper.draw_int.
  destruct (Z.ltb_spec b a); [lia|].
  pose proof (uniform_int_range G Hlaws a b (Flipper.engine_ f) Hab) as Hr.
  destruct (uniform_int a b (Flipper.engine_ f)) as [x g]. simpl in Hr.
  exists x, (Flipper.set_engine g f). auto.
Qed.

Lemma draw_real_returns f (Q : R -> Flipper.t G -> Prop) :
  (forall x g, (0 <= x < 1)%R -> Q x (Flipper.set_engine g f)) ->
  returns Flipper.draw_real f Q.
Proof using Hlaws.
  intros HQ. unfold returns, Flipper.draw_real.
  pose proof (uniform_real_range G Hlaws (Flipper.engine_ f)) as Hr.
  destruct (uniform_real (Flipper.engine_ f)) as [x g]. simpl in Hr.
  exists x, (Flipper.set_engine g f). auto.
Qed.

Lemma random_local_state_returns f (Q : double -> Flipper.t G -> Prop) :
  1 <= to_int (Z.of_nat (length (Flipper.local_states_ f)))
    <= Z.of_nat (length (Flipper.local_states_ f)) ->
  (forall v g, v ∈ Flipper.local_states_ f -> Q v (Flipper.set_engine g f)) ->
  returns Flipper.random_local_state f Q.
Proof using Hlaws.
  intros Hsz HQ. unfold Flipper.random_local_state.
  apply returns_bind, returns_gets, returns_bind.
  apply draw_int_returns; [lia|]. intros i g Hi. simpl.
  destruct (lookup_lt_is_Some_2 (Flipper.local_states_ f) (Z.to_nat i))
    as [v Hv]; [lia|].
  eapply returns_of_outcome.
  - apply at_Ok. split; [lia | exact Hv].
  - apply HQ. by eapply list_elem_of_lookup_2.
Qed.

Lemma write_state_returns (i j : Z) (v : double) (r : list double) f
    (Q : unit -> Flipper.t G -> Prop) :
  0 <= i -> Flipper.state_ f !! Z.to_nat i = Some r ->
  0 <= j < Z.of_nat (length r) ->
  Q tt (Flipper.set_state
          (<[Z.to_nat i := <[Z.to_nat j := v]> r]> (Flipper.state_ f)) f) ->
  returns (Flipper.write_state i j v) f Q.
Proof.
  intros Hi Hr Hj HQ. unfold Flipper.write_state.
  apply returns_bind, returns_gets, returns_bind.
  eapply returns_of_outcome; [by apply store2_Ok|].
  by apply returns_modify.
Qed.

(** [RandomState] fills the whole matrix with local states and touches
    nothing else but the engine. *)
Lemma RandomState_returns (bs ss : nat) f (Q : unit -> Flipper.t G -> Prop) :
  (1 <= bs)%nat -> shaped bs ss (Flipper.state_ f) ->
  1 <= to_int (Z.of_nat (length (Flipper.local_states_ f)))
    <= Z.of_nat (length (Flipper.local_states_ f)) ->
  (forall f', Flipper.sites_ f' = Flipper.sites_ f ->
              Flipper.values_ f' = Flipper.values_ f ->
              Flipper.local_states_ f' = Flipper.local_states_ f ->
              shaped bs ss (Flipper.state_ f') ->
              within (Flipper.local_states_ f) (Flipper.state_ f') ->
              Q tt f') ->
  returns Flipper.RandomState f Q.
Proof using Hlaws.
  intros Hbs Hsh Hsz HQ. unfold Flipper.RandomState.
  apply returns_bind, returns_gets, returns_bind, returns_gets.
  unfold Flipper.BatchSize, Flipper.SystemSize.
  rewrite (shaped_rows bs ss), (shaped_cols bs ss) by done.
  set (frame := fun f1 : Flipper.t G =>
         Flipper.sites_ f1 = Flipper.sites_ f
         /\ Flipper.values_ f1 = Flipper.values_ f
         /\ Flipper.local_states_ f1 = Flipper.local_states_ f
         /\ shaped bs ss (Flipper.state_ f1)).
  set (ls := Flipper.local_states_ f) in *.
  eapply returns_mono.
  - apply (returns_for_range (fun i f1 =>
        frame f1 /\ within ls (take (Z.to_nat i) (Flipper.state_ f1)))).
    + lia.
    + split; [unfold frame; by split_and!|]. apply Forall_nil_2.
    + intros i f1 Hi [Hfr Hin].
      destruct (shaped_lookup bs ss (Flipper.state_ f1) (Z.to_nat i))
        as (r0 & Hr0 & Hlen0); [apply Hfr | lia |].
      eapply returns_mono.
      * apply (returns_for_range (fun j f2 =>
          frame f2 /\ within ls (take (Z.to_nat i) (Flipper.state_ f2))
          /\ exists r, Flipper.state_ f2 !! Z.to_nat i = Some r
                       /\ Forall (fun v => v ∈ ls) (take (Z.to_nat j) r))).
        -- lia.
        -- split; [done|]. split; [done|]. exists r0. split; [done|].
           apply Forall_nil_2.
        -- intros j f2 Hj (Hfr2 & Hin2 & r & Hr & Hrin).
           destruct Hfr2 as (Hs2 & Hv2 & Hl2 & Hsh2).
           assert (length r = ss) as Hlen.
           { destruct Hsh2 as [_ Hrows].
             by eapply (Forall_lookup_1 _ _ _ _ Hrows). }
           apply returns_bind, random_local_state_returns;
             [by rewrite Hl2|].
           intros v g Hv. rewrite Hl2 in Hv.
           eapply write_state_returns; [lia | exact Hr | lia |]. simpl.
           split; [|split].
           ++ unfold frame. simpl. split_and!; try done.
              apply shaped_insert; [done|]. by rewrite length_insert.
           ++ by rewrite take_insert_ge.
           ++ exists (<[Z.to_nat j := v]> r). split.
              ** apply list_lookup_insert_eq.
                 by eapply lookup_lt_Some.
              ** replace (Z.to_nat (j + 1)) with (S (Z.to_nat j)) by lia.
                 rewrite (take_S_r _ _ v)
                   by (apply list_lookup_insert_eq; lia).
                 rewrite take_insert_ge by lia.
                 apply Forall_app. split; [done|]. by apply Forall_singleton.
      * intros [] f2 (Hfr2 & Hin2 & r & Hr & Hrin). split; [done|].
        replace (Z.to_nat (i + 1)) with (S (Z.to_nat i)) by lia.
        rewrite (take_S_r _ _ r) by done.
        apply Forall_app. split; [done|]. apply Forall_singleton.
        assert (length r = ss) as Hlen.
        { destruct Hfr2 as (_ & _ & _ & _ & Hrows).
          by eapply (Forall_lookup_1 _ _ _ _ Hrows). }
        rewrite firstn_all2 in Hrin by lia. done.
  - intros [] f' [(Hs & Hv & Hl & Hsh') Hin]. apply HQ; try done.
    destruct Hsh' as [Hlen ?].
    unfold within in Hin. rewrite firstn_all2 in Hin by lia. done.
Qed.

Lemma shifted_value_total (ls : list double) (cur : double) (idx : Z) :
  0 <= idx <= Z.of_nat (length ls) - 2 ->
  exists v, Flipper.shifted_value ls cur idx = Ok v /\ v ∈ ls.
Proof.
  intros Hidx. unfold Flipper.shifted_value.
  destruct (lookup_lt_is_Some_2 ls (Z.to_nat idx)) as [c Hc]; [lia|].
  assert (at_ ls idx = Ok c) as -> by (apply at_Ok; split; [lia | done]).
  set (idx' := idx + (if dge c cur then 1 else 0)).
  assert (0 <= idx' <= Z.of_nat (length ls) - 1)
    by (subst idx'; destruct (dge c cur); lia).
  destruct (lookup_lt_is_Some_2 ls (Z.to_nat idx')) as [v Hv]; [lia|].
  exists v. split.
  - apply at_Ok. split; [lia | done].
  - by eapply list_elem_of_lookup_2.
Qed.

Lemma write_site_returns (j v : Z) f (Q : unit -> Flipper.t G -> Prop) :
  0 <= j < Z.of_nat (length (Flipper.sites_ f)) ->
  Q tt (Flipper.set_sites (<[Z.to_nat j := v]> (Flipper.sites_ f)) f) ->
  returns (Flipper.write_site j v) f Q.
Proof.
  intros Hj HQ. unfold Flipper.write_site.
  apply returns_bind, returns_gets, returns_bind.
  eapply returns_of_outcome; [by apply store_Ok|].
  by apply returns_modify.
Qed.

Lemma write_value_returns (j : Z) (v : double) f
    (Q : unit -> Flipper.t G -> Prop) :
  0 <= j < Z.of_nat (length (Flipper.values_ f)) ->
  Q tt (Flipper.set_values (<[Z.to_nat j := v]> (Flipper.values_ f)) f) ->
  returns (Flipper.write_value j v) f Q.
Proof.
  intros Hj HQ. unfold Flipper.write_value.
  apply returns_bind, returns_gets, returns_bind.
  eapply returns_of_outcome; [by apply store_Ok|].
  by apply returns_modify.
Qed.

(** [RandomSites] redraws every proposed site inside the system and
    touches nothing else but the engine. *)
Lemma RandomSites_returns (bs ss : nat) f (Q : unit -> Flipper.t G -> Prop) :
  (1 <= bs)%nat -> (1 <= ss)%nat -> shaped bs ss (Flipper.state_ f) ->
  (forall f', Flipper.values_ f' = Flipper.values_ f ->
              Flipper.state_ f' = Flipper.state_ f ->
              Flipper.local_states_ f' = Flipper.local_states_ f ->
              length (Flipper.sites_ f') = length (Flipper.sites_ f) ->
              Forall (fun s => 0 <= s < Z.of_nat ss) (Flipper.sites_ f') ->
              Q tt f') ->
  returns Flipper.RandomSites f Q.
Proof using Hlaws.
  intros Hbs Hss Hsh HQ. unfold Flipper.RandomSites.
  apply returns_bind, returns_gets.
  eapply returns_mono.
  - apply (returns_for_range (fun j f1 =>
        Flipper.values_ f1 = Flipper.values_ f
        /\ Flipper.state_ f1 = Flipper.state_ f
        /\ Flipper.local_states_ f1 = Flipper.local_states_ f
        /\ length (Flipper.sites_ f1) = length (Flipper.sites_ f)
        /\ Forall (fun s => 0 <= s < Z.of_nat ss)
                  (take (Z.to_nat j) (Flipper.sites_ f1)))).
    + lia.
    + by split_and!.
    + intros j f1 Hj (Hv & Hst & Hl & Hlen & Hin).
      apply returns_bind, returns_gets, returns_bind.
      unfold Flipper.SystemSize. rewrite Hst, (shaped_cols bs ss) by done.
      apply draw_int_returns; [lia|]. intros v g Hv'.
      apply write_site_returns; simpl; [lia|].
      split_and!; try done.
      * by rewrite length_insert.
      * replace (Z.to_nat (j + 1)) with (S (Z.to_nat j)) by lia.
        rewrite (take_S_r _ _ v) by (apply list_lookup_insert_eq; lia).
        rewrite take_insert_ge by lia.
        apply Forall_app. split; [done|]. apply Forall_singleton. lia.
  - intros [] f' (Hv & Hst & Hl & Hlen & Hin). apply HQ; try done.
    rewrite firstn_all2 in Hin by lia. done.
Qed.

Lemma propose_value_returns (bs ss : nat) (j : Z) f
    (Q : double -> Flipper.t G -> Prop) :
  shaped bs ss (Flipper.state_ f) ->
  length (Flipper.sites_ f) = bs ->
  Forall (fun s => 0 <= s < Z.of_nat ss) (Flipper.sites_ f) ->
  2 <= to_int (Z.of_nat (length (Flipper.local_states_ f)))
    <= Z.of_nat (length (Flipper.local_states_ f)) ->
  0 <= j < Z.of_nat bs ->
  (forall v g,
     v ∈ Flipper.local_states_ f ->
     proposal_from (Flipper.local_states_ f) (Flipper.state_ f)
                   (Flipper.sites_ f) (Z.to_nat j) v ->
     Q v (Flipper.set_engine g f)) ->
  returns (Flipper.propose_value j) f Q.
Proof using Hlaws.
  intros Hsh Hlen Hsites Hsz Hj HQ. unfold Flipper.propose_value.
  apply returns_bind, returns_gets, returns_bind.
  apply draw_int_returns; [lia|]. intros idx g Hidx. simpl.
  apply returns_bind, returns_gets, returns_bind.
  destruct (lookup_lt_is_Some_2 (Flipper.sites_ f) (Z.to_nat j))
    as [site Hsite]; [lia|].
  pose proof (Forall_lookup_1 _ _ _ _ Hsites Hsite) as Hrange.
  simpl in Hrange.
  eapply returns_of_outcome; [apply at_Ok; split; [lia | exact Hsite]|].
  apply returns_bind, returns_gets, returns_bind. simpl.
  destruct (shaped_lookup bs ss (Flipper.state_ f) (Z.to_nat j))
    as (row & Hrow & Hrlen); [done | lia |].
  destruct (lookup_lt_is_Some_2 row (Z.to_nat site)) as [cur Hcur]; [lia|].
  eapply (returns_of_outcome _ cur).
  { unfold at2.
    assert (at_ (Flipper.state_ f) j = Ok row) as ->
      by (apply at_Ok; split; [lia | done]).
    apply at_Ok. split; [lia | done]. }
  destruct (shifted_value_total (Flipper.local_states_ f) cur idx)
    as (v & Ev & Hv); [lia|].
  eapply returns_of_outcome; [exact Ev|].
  apply HQ; [done|]. exists site, row, cur, idx. split_and!; try done; lia.
Qed.

(** [RandomValues] redraws every proposed value through the index shift
    and touches nothing else but the engine. *)
Lemma RandomValues_returns (bs ss : nat) f (Q : unit -> Flipper.t G -> Prop) :
  shaped bs ss (Flipper.state_ f) ->
  length (Flipper.sites_ f) = bs ->
  length (Flipper.values_ f) = bs ->
  Forall (fun s => 0 <= s < Z.of_nat ss) (Flipper.sites_ f) ->
  2 <= to_int (Z.of_nat (length (Flipper.local_states_ f)))
    <= Z.of_nat (length (Flipper.local_states_ f)) ->
  (forall f', Flipper.sites_ f' = Flipper.sites_ f ->
              Flipper.state_ f' = Flipper.state_ f ->
              Flipper.local_states_ f' = Flipper.local_states_ f ->
              length (Flipper.values_ f') = bs ->
              Forall (fun v => v ∈ Flipper.local_states_ f)
                     (Flipper.values_ f') ->
              (forall j v, Flipper.values_ f' !! j = Some v ->
                 proposal_from (Flipper.local_states_ f) (Flipper.state_ f)
                               (Flipper.sites_ f) j v) ->
              Q tt f') ->
  returns Flipper.RandomValues f Q.
Proof using Hlaws.
  intros Hsh Hslen Hvlen Hsites Hsz HQ. unfold Flipper.RandomValues.
  apply returns_bind, returns_gets.
  unfold Flipper.BatchSize. rewrite (shaped_rows bs ss) by done.
  set (ls := Flipper.local_states_ f) in *.
  eapply returns_mono.
  - apply (returns_for_range (fun j f1 =>
        Flipper.sites_ f1 = Flipper.sites_ f
        /\ Flipper.state_ f1 = Flipper.state_ f
        /\ Flipper.local_states_ f1 = ls
        /\ length (Flipper.values_ f1) = bs
        /\ forall j' v, (j' < Z.to_nat j)%nat ->
             Flipper.values_ f1 !! j' = Some v ->
             v ∈ ls
             /\ proposal_from ls (Flipper.state_ f) (Flipper.sites_ f) j' v)).
    + lia.
    + split_and!; try done. intros; lia.
    + intros j f1 Hj (Hs & Hst & Hl & Hlen & Hin).
      apply returns_bind.
      apply (propose_value_returns bs ss);
        rewrite ?Hs, ?Hst, ?Hl; try done.
      intros v g Hv Hfrom.
      apply write_value_returns; simpl; [lia|].
      split_and!; try done.
      * by rewrite length_insert.
      * intros j' v' Hj' Hv'.
        destruct (decide (j' = Z.to_nat j)) as [->|Hne].
        -- rewrite list_lookup_insert_eq in Hv' by lia.
           by inversion Hv'; subst.
        -- rewrite list_lookup_insert_ne in Hv' by done.
           apply Hin; [lia | done].
  - intros [] f' (Hs & Hst & Hl & Hlen & Hin). apply HQ; try done.
    + apply Forall_lookup_2. intros j v Hv.
      apply (Hin j v); [|done]. apply lookup_lt_Some in Hv. lia.
    + intros j v Hv.
      apply (Hin j v); [|done]. apply lookup_lt_Some in Hv. lia.
Qed.

(** [Reset] establishes the invariant from the shape alone. *)
Lemma Reset_returns (bs ss : nat) f (Q : unit -> Flipper.t G -> Prop) :
  (1 <= bs)%nat -> (1 <= ss)%nat ->
  alphabet_ok (Flipper.local_states_ f) ->
  shaped bs ss (Flipper.state_ f) ->
  length (Flipper.sites_ f) = bs ->
  length (Flipper.values_ f) = bs ->
  (forall f', wf bs ss (Flipper.local_states_ f) f' -> Q tt f') ->
  returns Flipper.Reset f Q.
Proof using Hlaws.
  intros Hbs Hss Hok Hsh Hslen Hvlen HQ. unfold Flipper.Reset.
  apply returns_bind, (RandomState_returns bs ss); [done | done | |].
  { unfold alphabet_ok in Hok. lia. }
  intros f1 Hs1 Hv1 Hl1 Hsh1 Hin1.
  apply returns_bind, (RandomSites_returns bs ss); [done | done | done |].
  intros f2 Hv2 Hst2 Hl2 Hslen2 Hr2.
  apply (RandomValues_returns bs ss).
  { by rewrite Hst2. }
  { congruence. }
  { congruence. }
  { done. }
  { by rewrite Hl2, Hl1. }
  rewrite Hst2, Hl2, Hl1.
  intros f3 Hs3 Hst3 Hl3 Hvlen3 Hvin3 Hprop3.
  apply HQ. split; rewrite ?Hs3, ?Hst3; try done; congruence.
Qed.

(** A commit followed by fresh proposals: [Next] keeps the invariant and
    rewrites each row according to the mask. *)
Lemma Flipper_Next_returns (bs ss : nat) (ls : list double)
    (accept : list bool) f (Q : unit -> Flipper.t G -> Prop) :
  wf bs ss ls f -> length accept = bs ->
  (forall f1 f',
     wf bs ss ls f' ->
     Flipper.state_ f1 = committed accept f ->
     (do_ Flipper.RandomSites; Flipper.RandomValues) f1 = (Ok tt, f') ->
     Flipper.state_ f' = Flipper.state_ f1 ->
     Q tt f') ->
  returns (Flipper.Next accept) f Q.
Proof using Hlaws.
  intros Hwf Hacc HQ. destruct Hwf. unfold Flipper.Next.
  apply returns_bind, returns_gets.
  unfold Flipper.BatchSize. rewrite (shaped_rows bs ss) by done.
  apply returns_bind.
  eapply returns_mono.
  - apply (returns_for_range (fun i f1 =>
        Flipper.sites_ f1 = Flipper.sites_ f
        /\ Flipper.values_ f1 = Flipper.values_ f
        /\ Flipper.local_states_ f1 = Flipper.local_states_ f
        /\ shaped bs ss (Flipper.state_ f1)
        /\ within ls (Flipper.state_ f1)
        /\ forall j row, Flipper.state_ f !! j = Some row ->
             Flipper.state_ f1 !! j =
             Some (if decide (j < Z.to_nat i)%nat
                   then row_after accept f j row else row))).
    + lia.
    + by split_and!.
    + intros i f1 Hi (Hs1 & Hv1 & Hl1 & Hsh1 & Hin1 & Hrows).
      destruct (lookup_lt_is_Some_2 accept (Z.to_nat i)) as [a Ha]; [lia|].
      destruct (lookup_lt_is_Some_2 (Flipper.sites_ f) (Z.to_nat i))
        as [site Hsite]; [lia|].
      destruct (lookup_lt_is_Some_2 (Flipper.values_ f) (Z.to_nat i))
        as [v Hv]; [lia|].
      destruct (shaped_lookup bs ss (Flipper.state_ f) (Z.to_nat i))
        as (row & Hrow & Hrlen); [done | lia |].
      pose proof (Forall_lookup_1 _ _ _ _ wf_sites_range0 Hsite) as Hrange.
      pose proof (Forall_lookup_1 _ _ _ _ wf_values_within0 Hv) as Hvin.
      simpl in Hrange, Hvin.
      assert (Hstep : forall j row',
                j <> Z.to_nat i ->
                (if decide (j < Z.to_nat i)%nat
                 then row_after accept f j row' else row')
                = (if decide (j < Z.to_nat (i + 1))%nat
                   then row_after accept f j row' else row')).
      { intros j row' Hne.
        destruct (decide (j < Z.to_nat i)%nat),
                 (decide (j < Z.to_nat (i + 1))%nat); try done; lia. }
      pose proof (Hrows _ _ Hrow) as Hrow1.
      destruct (decide (Z.to_nat i < Z.to_nat i)%nat); [lia|].
      apply returns_bind.
      eapply returns_of_outcome; [apply at_Ok; split; [lia | exact Ha]|].
      destruct a.
      * apply returns_bind, returns_gets, returns_bind. rewrite Hs1.
        eapply returns_of_outcome; [apply at_Ok; split; [lia | exact Hsite]|].
        apply returns_bind, returns_gets, returns_bind. rewrite Hv1.
        eapply returns_of_outcome; [apply at_Ok; split; [lia | exact Hv]|].
        eapply write_state_returns; [lia | exact Hrow1 | lia |]. simpl.
        split_and!; try done.
        -- apply shaped_insert; [done|]. by rewrite length_insert.
        -- apply Forall_insert; [done|]. apply Forall_insert; [|done].
           by eapply (Forall_lookup_1 _ _ _ _ Hin1).
        -- intros j row' Hrow'.
           destruct (decide (j = Z.to_nat i)) as [->|Hne].
           ++ rewrite list_lookup_insert_eq by (by eapply lookup_lt_Some).
              destruct (decide (Z.to_nat i < Z.to_nat (i + 1))%nat); [|lia].
              unfold row_after, proposed_row. rewrite Ha, Hsite, Hv.
              congruence.
           ++ rewrite list_lookup_insert_ne by done.
              rewrite <- Hstep by done. by apply Hrows.
      * apply returns_ret. split_and!; try done. intros j row' Hrow'.
        destruct (decide (j = Z.to_nat i)) as [->|Hne].
        -- rewrite (Hrows _ _ Hrow').
           destruct (decide (Z.to_nat i < Z.to_nat i)%nat); [lia|].
           destruct (decide (Z.to_nat i < Z.to_nat (i + 1))%nat); [|lia].
           unfold row_after. by rewrite Ha.
        -- rewrite <- Hstep by done. by apply Hrows.
  - intros [] f1 (Hs1 & Hv1 & Hl1 & Hsh1 & Hin1 & Hrows). simpl.
    assert (Hrows' : forall j row, Flipper.state_ f !! j = Some row ->
              Flipper.state_ f1 !! j = Some (row_after accept f j row)).
    { intros j row Hrow. rewrite (Hrows _ _ Hrow).
      apply lookup_lt_Some in Hrow. destruct wf_state0 as [Hlen _].
      destruct (decide (j < Z.to_nat (Z.of_nat bs))%nat); [done | lia]. }
    assert (Hst1 : Flipper.state_ f1 = committed accept f).
    { apply matrix_eq_imap; [|done].
      destruct Hsh1 as [-> _]. by destruct wf_state0 as [-> _]. }
    match goal with |- returns ?m f1 _ =>
      cut (returns m f1 (fun _ f' =>
             wf bs ss ls f' /\ Flipper.state_ f' = Flipper.state_ f1))
    end.
    { intros ([] & f' & E & Hwf' & Hst'). exists tt, f'.
      split; [done|]. by apply (HQ f1 f'). }
    apply returns_bind, (RandomSites_returns bs ss); [done | done | done |].
    intros f2 Hv2 Hst2 Hl2 Hslen2 Hr2.
    apply (RandomValues_returns bs ss).
    { by rewrite Hst2. }
    { congruence. }
    { congruence. }
    { done. }
    { rewrite Hl2, Hl1. by rewrite wf_local_states0. }
    rewrite Hst2, Hl2, Hl1, wf_local_states0.
    intros f3 Hs3 Hst3 Hl3 Hvlen3 Hvin3 Hprop3.
    split; [|congruence].
    split; rewrite ?Hs3, ?Hst3; try done; congruence.
Qed.

Lemma Read_lookup f (j : nat) (site : Z) (v : double) :
  Flipper.sites_ f !! j = Some site -> Flipper.values_ f !! j = Some v ->
  Flipper.Read f !! j
  = Some {| Flipper.sites := [site]; Flipper.values := [v] |}.
Proof.
  intros Hs Hv. unfold Flipper.Read. rewrite lookup_zip_with, Hs, Hv. done.
Qed.

(** [Read(x)] overwrites a buffer of the right shape with the proposed
    batch. *)
Lemma Read_into_returns (bs ss : nat) (ls : list double) f (x : RowMatrix)
    (Q : unit -> RowMatrix -> Prop) :
  wf bs ss ls f -> shaped bs ss x ->
  Q tt (proposed_matrix f) ->
  returns (Flipper.Read_into f) x Q.
Proof.
  intros Hwf Hx HQ. destruct Hwf. unfold Flipper.Read_into.
  apply returns_bind, returns_get, returns_bind.
  unfold Flipper.BatchSize, Flipper.SystemSize.
  rewrite !(shaped_rows bs ss), !(shaped_cols bs ss) by done.
  apply returns_assert; [by rewrite !Z.eqb_refl|].
  apply returns_bind, returns_put.
  eapply returns_mono.
  - apply (returns_for_range (fun i x1 =>
        shaped bs ss x1
        /\ forall j row, Flipper.state_ f !! j = Some row ->
             x1 !! j = Some (if decide (j < Z.to_nat i)%nat
                             then proposed_row f j row else row))).
    + lia.
    + by split.
    + intros i x1 Hi [Hsh1 Hrows].
      destruct (lookup_lt_is_Some_2 (Flipper.sites_ f) (Z.to_nat i))
        as [site Hsite]; [lia|].
      destruct (lookup_lt_is_Some_2 (Flipper.values_ f) (Z.to_nat i))
        as [v Hv]; [lia|].
      destruct (shaped_lookup bs ss (Flipper.state_ f) (Z.to_nat i))
        as (row & Hrow & Hrlen); [done | lia |].
      pose proof (Forall_lookup_1 _ _ _ _ wf_sites_range0 Hsite) as Hrange.
      simpl in Hrange.
      pose proof (Hrows _ _ Hrow) as Hrow1.
      destruct (decide (Z.to_nat i < Z.to_nat i)%nat); [lia|].
      apply returns_bind.
      eapply returns_of_outcome.
      { apply at_Ok. split; [lia|]. by apply Read_lookup. }
      cbv beta. apply returns_bind, returns_assert; [done|].
      apply returns_bind. eapply returns_of_outcome; [done|].
      apply returns_bind. eapply returns_of_outcome; [done|].
      apply returns_bind, returns_get, returns_bind.
      eapply returns_of_outcome; [apply store2_Ok; [lia | exact Hrow1 | lia]|].
      apply returns_put. split.
      * apply shaped_insert; [done|]. by rewrite length_insert.
      * intros j row' Hrow'.
        destruct (decide (j = Z.to_nat i)) as [->|Hne].
        -- rewrite list_lookup_insert_eq by (by eapply lookup_lt_Some).
           destruct (decide (Z.to_nat i < Z.to_nat (i + 1))%nat); [|lia].
           unfold proposed_row. rewrite Hsite, Hv. congruence.
        -- rewrite list_lookup_insert_ne by done.
           rewrite (Hrows _ _ Hrow').
           destruct (decide (j < Z.to_nat i)%nat),
                    (decide (j < Z.to_nat (i + 1))%nat); try done; lia.
  - intros [] x1 [Hsh1 Hrows]. simpl.
    assert (x1 = proposed_matrix f) as ->; [|done].
    apply matrix_eq_imap.
    + destruct Hsh1 as [-> _]. by destruct wf_state0 as [-> _].
    + intros j row Hrow. rewrite (Hrows _ _ Hrow).
      apply lookup_lt_Some in Hrow. destruct wf_state0 as [Hlen _].
      destruct (decide (j < Z.to_nat (Z.of_nat bs))%nat); [done | lia].
Qed.

End FlipperOps.

(** ** [std::sort] keeps the elements *)

Lemma sort_insert_Permutation (x : double) (l : list double) :
  sort_insert x l ≡ₚ x :: l.
Proof.
  induction l as [|y l IH]; simpl; [done|].
  destruct (dlt y x); [|done].
  rewrite IH. apply Permutation_swap.
Qed.

Lemma sort_Permutation (l : list double) : sort l ≡ₚ l.
Proof.
  induction l as [|x l IH]; simpl; [done|].
  by rewrite sort_insert_Permutation, IH.
Qed.

Lemma sort_length (l : list double) : length (sort l) = length l.
Proof. by rewrite sort_Permutation. Qed.

Lemma elem_of_sort (v : double) (l : list double) : v ∈ sort l <-> v ∈ l.
Proof. by rewrite sort_Permutation. Qed.

(** ** [std::sort] sorts *)

Lemma dlt_total (x y : double) :
  x <> S754_nan -> y <> S754_nan ->
  dlt x y = true \/ deq x y = true \/ dlt y x = true.
Proof.
  unfold dlt, deq, SFltb, SFeqb, SFcompare.
  destruct x as [sx|sx| |sx mx ex], y as [sy|sy| |sy my ey];
    try destruct sx; try destruct sy; simpl; intros Hx Hy;
    try done; auto.
  - destruct (Z.compare_spec ex ey); auto.
    change (Pos.compare_cont Eq mx my) with (Pos.compare mx my).
    change (Pos.compare_cont Eq my mx) with (Pos.compare my mx).
    rewrite (Pos.compare_antisym mx my).
    destruct (Pos.compare_spec mx my); simpl; auto.
    all: destruct (Z.compare_spec ey ex); auto; lia.
  - destruct (Z.compare_spec ex ey); auto.
    change (Pos.compare_cont Eq mx my) with (Pos.compare mx my).
    change (Pos.compare_cont Eq my mx) with (Pos.compare my mx).
    rewrite (Pos.compare_antisym mx my).
    destruct (Pos.compare_spec mx my); simpl; auto.
    all: destruct (Z.compare_spec ey ex); auto; lia.
Qed.

Lemma deq_sym (x y : double) : deq x y = deq y x.
Proof. float_cases. Qed.

Lemma sort_insert_ascending (x : double) (l : list double) :
  x <> S754_nan -> Forall (fun y => y <> S754_nan) l ->
  Forall (fun y => deq x y = false) l ->
  strictly_ascending l -> strictly_ascending (sort_insert x l).
Proof.
  intros Hx Hnan Hne Hasc. induction Hasc as [|y l Hl IH Hy]; simpl.
  - by repeat constructor.
  - apply Forall_cons in Hnan as [Hynan Hnan].
    apply Forall_cons in Hne as [Hxy Hne].
    destruct (dlt y x) eqn:Hyx.
    + constructor; [by apply IH|].
      rewrite sort_insert_Permutation. by constructor.
    + destruct (dlt_total x y Hx Hynan) as [Hlt|[Heq|Hgt]];
        [|congruence|congruence].
      constructor; [by constructor|]. constructor; [done|].
      eapply Forall_impl; [exact Hy|]. intros z Hz. simpl in *.
      by apply (dlt_trans x y z).
Qed.

Lemma pairwise_distinct_cons (x : double) (l : list double) :
  pairwise_distinct (x :: l) ->
  Forall (fun y => deq x y = false) l /\ pairwise_distinct l.
Proof.
  intros Hd. split.
  - apply Forall_lookup_2. intros j y Hy.
    apply (Hd 0%nat (S j) x y); [lia | done | done].
  - intros i j a b Hij Ha Hb. apply (Hd (S i) (S j) a b); [lia | done | done].
Qed.

(** On distinct values without NaN the constructor's sort leaves the
    alphabet strictly ascending, as [RandomValues] requires. *)
Lemma sort_strictly_ascending (l : list double) :
  Forall (fun y => y <> S754_nan) l -> pairwise_distinct l ->
  strictly_ascending (sort l).
Proof.
  induction l as [|x l IH]; intros Hnan Hd; simpl.
  - constructor.
  - apply Forall_cons in Hnan as [Hx Hnan].
    apply pairwise_distinct_cons in Hd as [Hne Hd].
    apply sort_insert_ascending; [done | | | by apply IH].
    + by rewrite sort_Permutation.
    + by rewrite sort_Permutation.
Qed.

(** ** Where exceptions can come from *)

Lemma no_throw_ret {St A} (a : A) : no_throw (ret (St := St) a).
Proof. by intros s e s'. Qed.

Lemma no_throw_gets {St A} (f : St -> A) : no_throw (gets f).
Proof. by intros s e s'. Qed.

Lemma no_throw_modify {St} (f : St -> St) : no_throw (modify f).
Proof. by intros s e s'. Qed.

Lemma no_throw_of_outcome {St A} (o : outcome A) :
  (forall e, o <> Throw e) -> no_throw (of_outcome (St := St) o).
Proof. intros Ho s e s'. unfold of_outcome. intros [=]. by eapply Ho. Qed.

Lemma no_throw_bind {St A B} (m : M St A) (k : A -> M St B) :
  no_throw m -> (forall a, no_throw (k a)) -> no_throw (bind m k).
Proof.
  intros Hm Hk s e s'. unfold bind.
  destruct (m s) as [[a|e1|] s1] eqn:E.
  - apply Hk.
  - by apply Hm in E.
  - done.
Qed.

Lemma no_throw_for_loop {St} (n : nat) (j : Z) (body : Z -> M St unit) :
  (forall i, no_throw (body i)) -> no_throw (for_loop n j body).
Proof.
  intros Hbody. revert j. induction n as [|n IH]; intros j; simpl.
  - apply no_throw_ret.
  - apply no_throw_bind; [apply Hbody | intros _; apply IH].
Qed.

Lemma no_throw_for_range {St} (lo hi : Z) (body : Z -> M St unit) :
  (forall i, no_throw (body i)) -> no_throw (for_range lo hi body).
Proof. apply no_throw_for_loop. Qed.

Lemma at_no_throw {A} (l : list A) (i : Z) (e : exn) : at_ l i <> Throw e.
Proof. unfold at_. destruct (i <? 0); [done|]. by destruct (l !! _). Qed.

Lemma store_no_throw {A} (l : list A) (i : Z) (x : A) (e : exn) :
  store l i x <> Throw e.
Proof. unfold store. by destruct (_ && _). Qed.

Lemma at2_no_throw (x : RowMatrix) (i j : Z) (e : exn) : at2 x i j <> Throw e.
Proof.
  unfold at2.
  destruct (at_ x i) as [r| |] eqn:E; [|by apply at_no_throw in E|done].
  apply at_no_throw.
Qed.

Lemma store2_no_throw (x : RowMatrix) (i j : Z) (v : double) (e : exn) :
  store2 x i j v <> Throw e.
Proof.
  unfold store2. destruct (_ && _); [|done].
  destruct (x !! _) as [r|]; [|done].
  destruct (store r j v) as [r'| |] eqn:E; [done | | done].
  by apply store_no_throw in E.
Qed.

Lemma shifted_value_no_throw (ls : list double) (cur : double) (idx : Z)
    (e : exn) :
  Flipper.shifted_value ls cur idx <> Throw e.
Proof.
  unfold Flipper.shifted_value.
  destruct (at_ ls idx) as [c| |] eqn:E; [|by apply at_no_throw in E|done].
  apply at_no_throw.
Qed.

Section NoThrow.
Context {G : Type} `{RandomSource G}.

Lemma draw_int_no_throw (a b : Z) :
  no_throw (Flipper.draw_int (G := G) a b).
Proof.
  intros f e f'. unfold Flipper.draw_int.
  destruct (b <? a); [done|]. by destruct (uniform_int _ _ _).
Qed.

Ltac no_throw_auto :=
  repeat first
    [ apply no_throw_ret | apply no_throw_gets | apply no_throw_modify
    | apply draw_int_no_throw
    | apply no_throw_of_outcome; intros ?;
      first [ apply at_no_throw | apply store_no_throw | apply at2_no_throw
            | apply store2_no_throw | apply shifted_value_no_throw ]
    | apply no_throw_for_range; intros ?
    | apply no_throw_bind; [|intros ?] ].

Lemma RandomState_no_throw : no_throw (Flipper.RandomState (G := G)).
Proof.
  unfold Flipper.RandomState, Flipper.random_local_state, Flipper.write_state.
  no_throw_auto.
Qed.

Lemma RandomSites_no_throw : no_throw (Flipper.RandomSites (G := G)).
Proof. unfold Flipper.RandomSites, Flipper.write_site. no_throw_auto. Qed.

Lemma RandomValues_no_throw : no_throw (Flipper.RandomValues (G := G)).
Proof.
  unfold Flipper.RandomValues, Flipper.propose_value, Flipper.write_value.
  no_throw_auto.
Qed.

Lemma Flipper_Reset_no_throw : no_throw (Flipper.Reset (G := G)).
Proof.
  unfold Flipper.Reset.
  apply no_throw_bind; [apply RandomState_no_throw | intros _].
  apply no_throw_bind; [apply RandomSites_no_throw | intros _].
  apply RandomValues_no_throw.
Qed.

(** The constructor throws exactly on the three validation failures, with
    the message of the first one that applies. *)
Lemma Flipper_new_Throw (batch_size system_size : Z)
    (local_states : list double) (g : G) (e : exn) :
  Flipper.Flipper (batch_size, system_size) local_states g = Throw e
  <-> (batch_size < 1
       /\ e = InvalidInputError
                ("invalid batch size: " ++ pretty batch_size
                 ++ "; expected >=1"))
      \/ (1 <= batch_size /\ system_size < 1
          /\ e = InvalidInputError
                   ("invalid system size: " ++ pretty system_size
                    ++ "; expected >=1"))
      \/ (1 <= batch_size /\ 1 <= system_size /\ local_states = []
          /\ e = InvalidInputError "invalid local states: []").
Proof.
  unfold Flipper.Flipper.
  destruct (Z.ltb_spec batch_size 1) as [Hb|Hb].
  { split.
    - intros [= <-]. by left.
    - intros [[_ ->]|[(? & _)|(? & _)]]; [done | lia | lia]. }
  destruct (Z.ltb_spec system_size 1) as [Hs|Hs].
  { split.
    - intros [= <-]. right. by left.
    - intros [[? _]|[(_ & _ & ->)|(_ & ? & _)]]; [lia | done | lia]. }
  destruct (bool_decide_reflect (local_states = [])) as [Hl|Hl].
  { split.
    - intros [= <-]. right. by right.
    - intros [[? _]|[(_ & ? & _)|(_ & _ & _ & ->)]]; [lia | lia | done]. }
  split.
  - destruct (Flipper.Reset _) as [[[]|e1|] f1] eqn:E; try done.
    by apply Flipper_Reset_no_throw in E.
  - intros [[? _]|[(_ & ? & _)|(_ & _ & ? & _)]]; [lia | lia | done].
Qed.

End NoThrow.

(** ** Undefined draws *)

Lemma to_int_le (n : Z) : 0 <= n -> to_int n <= n.
Proof.
  intros Hn. unfold to_int.
  pose proof (Z.mod_le (n + 2 ^ 31) (2 ^ 32)). lia.
Qed.

Lemma to_int_small (n : Z) : 0 <= n < 2 ^ 31 -> to_int n = n.
Proof. intros Hn. unfold to_int. rewrite Z.mod_small; lia. Qed.

Lemma alphabet_ok_iff (ls : list double) :
  alphabet_ok ls <-> 2 <= to_int (Z.of_nat (length ls)).
Proof.
  unfold alphabet_ok. pose proof (to_int_le (Z.of_nat (length ls))). lia.
Qed.

Lemma bind_Undefined {St A B} (m : M St A) (k : A -> M St B) (s s' : St) :
  m s = (Undefined, s') -> bind m k s = (Undefined, s').
Proof. intros E. unfold bind. by rewrite E. Qed.

Lemma for_range_first_undefined {St} (lo hi : Z) (body : Z -> M St unit)
    (s s' : St) :
  lo < hi -> body lo s = (Undefined, s') ->
  for_range lo hi body s = (Undefined, s').
Proof.
  intros Hlt E. unfold for_range.
  destruct (Z.to_nat (hi - lo)) as [|n] eqn:En; [lia|].
  simpl. by apply bind_Undefined.
Qed.

Section Construct.
Context {G : Type} `{RandomSource G} (Hlaws : RandomSourceLaws G).
Implicit Types (f : Flipper.t G).

Lemma draw_int_undefined (a b : Z) f :
  b < a -> Flipper.draw_int a b f = (Undefined, f).
Proof.
  intros Hlt. unfold Flipper.draw_int. by destruct (Z.ltb_spec b a); [|lia].
Qed.

(** With an alphabet of [int] size below 1 the first cell of
    [RandomState] draws from an inverted range. *)
Lemma RandomState_undefined f :
  1 <= Flipper.BatchSize f -> 1 <= Flipper.SystemSize f ->
  to_int (Z.of_nat (length (Flipper.local_states_ f))) < 1 ->
  Flipper.RandomState f = (Undefined, f).
Proof.
  intros Hb Hs Hsz. unfold Flipper.RandomState.
  rewrite (bind_Ok _ _ f f (Flipper.BatchSize f)) by done.
  rewrite (bind_Ok _ _ f f (Flipper.SystemSize f)) by done.
  apply for_range_first_undefined; [lia|].
  apply for_range_first_undefined; [lia|].
  apply bind_Undefined. unfold Flipper.random_local_state.
  erewrite bind_Ok by reflexivity.
  apply bind_Undefined, draw_int_undefined. lia.
Qed.

(** With an alphabet of [int] size below 2 the first chain of
    [RandomValues] draws from an inverted range. *)
Lemma RandomValues_undefined f :
  1 <= Flipper.BatchSize f ->
  to_int (Z.of_nat (length (Flipper.local_states_ f))) < 2 ->
  Flipper.RandomValues f = (Undefined, f).
Proof.
  intros Hb Hsz. unfold Flipper.RandomValues.
  rewrite (bind_Ok _ _ f f (Flipper.BatchSize f)) by done.
  apply for_range_first_undefined; [lia|].
  apply bind_Undefined. unfold Flipper.propose_value.
  erewrite bind_Ok by reflexivity.
  apply bind_Undefined, draw_int_undefined. lia.
Qed.

(** [Reset] on a shaped object needs an alphabet of [int] size at least
    2: below that, one of its draws is undefined. *)
Lemma Flipper_Reset_undefined (bs ss : nat) f :
  (1 <= bs)%nat -> (1 <= ss)%nat -> shaped bs ss (Flipper.state_ f) ->
  to_int (Z.of_nat (length (Flipper.local_states_ f))) < 2 ->
  exists f', Flipper.Reset f = (Undefined, f').
Proof using Hlaws.
  intros Hbs Hss Hsh Hsz. unfold Flipper.Reset.
  destruct (Z.lt_ge_cases
              (to_int (Z.of_nat (length (Flipper.local_states_ f)))) 1)
    as [Hlt|Hge].
  - exists f. apply bind_Undefined, RandomState_undefined; [| |done].
    + unfold Flipper.BatchSize. rewrite (shaped_rows bs ss) by done. lia.
    + unfold Flipper.SystemSize. rewrite (shaped_cols bs ss) by done. lia.
  - pose proof (to_int_le (Z.of_nat (length (Flipper.local_states_ f)))).
    destruct (returns_eq _ _ _
      (RandomState_returns Hlaws bs ss f
         (fun _ f1 => Flipper.local_states_ f1 = Flipper.local_states_ f
                      /\ shaped bs ss (Flipper.state_ f1))
         Hbs Hsh ltac:(lia)
         (fun f1 _ _ Hl Hsh1 _ => conj Hl Hsh1)))
      as ([] & f1 & E1 & Hl1 & Hsh1).
    rewrite (bind_Ok _ _ _ _ _ E1).
    destruct (returns_eq _ _ _
      (RandomSites_returns Hlaws bs ss f1
         (fun _ f2 => Flipper.local_states_ f2 = Flipper.local_states_ f1
                      /\ Flipper.state_ f2 = Flipper.state_ f1)
         Hbs Hss Hsh1
         (fun f2 _ Hst Hl _ _ => conj Hl Hst)))
      as ([] & f2 & E2 & Hl2 & Hst2).
    rewrite (bind_Ok _ _ _ _ _ E2).
    exists f2. apply RandomValues_undefined.
    + unfold Flipper.BatchSize. rewrite Hst2, (shaped_rows bs ss) by done. lia.
    + by rewrite Hl2, Hl1.
Qed.

(** On valid sizes and an alphabet of [int] size at least 2, the
    constructor returns an object that satisfies the invariant over the
    sorted alphabet. *)
Lemma Flipper_new_Ok (batch_size system_size : Z)
    (local_states : list double) (g : G) :
  1 <= batch_size -> 1 <= system_size ->
  2 <= to_int (Z.of_nat (length local_states)) ->
  exists f, Flipper.Flipper (batch_size, system_size) local_states g = Ok f
            /\ wf (Z.to_nat batch_size) (Z.to_nat system_size)
                  (sort local_states) f.
Proof using Hlaws.
  intros Hb Hs Hl. unfold Flipper.Flipper.
  destruct (Z.ltb_spec batch_size 1); [lia|].
  destruct (Z.ltb_spec system_size 1); [lia|].
  destruct (bool_decide_reflect (local_states = [])) as [->|_];
    [by vm_compute in Hl|].
  match goal with |- context [Flipper.Reset ?f0] => set (f := f0) end.
  destruct (Reset_returns Hlaws (Z.to_nat batch_size) (Z.to_nat system_size)
              f (fun _ f' => wf (Z.to_nat batch_size) (Z.to_nat system_size)
                                (sort local_states) f'))
    as ([] & f' & E & Hwf).
  - lia.
  - lia.
  - apply alphabet_ok_iff. simpl. by rewrite sort_length.
  - split; simpl.
    + by rewrite length_replicate.
    + apply Forall_replicate. by rewrite length_replicate.
  - simpl. by rewrite length_replicate.
  - simpl. by rewrite length_replicate.
  - done.
  - rewrite E. by exists f'.
Qed.

(** On valid sizes and a non-empty alphabet of [int] size below 2 (a
    single local state, in particular), the behaviour of the constructor
    is undefined. *)
Lemma Flipper_new_Undefined (batch_size system_size : Z)
    (local_states : list double) (g : G) :
  1 <= batch_size -> 1 <= system_size -> local_states <> [] ->
  to_int (Z.of_nat (length local_states)) < 2 ->
  Flipper.Flipper (batch_size, system_size) local_states g = Undefined.
Proof using Hlaws.
  intros Hb Hs Hne Hl. unfold Flipper.Flipper.
  destruct (Z.ltb_spec batch_size 1); [lia|].
  destruct (Z.ltb_spec system_size 1); [lia|].
  destruct (bool_decide_reflect (local_states = [])) as [->|_]; [done|].
  match goal with |- context [Flipper.Reset ?f0] => set (f := f0) end.
  destruct (Flipper_Reset_undefined (Z.to_nat batch_size)
              (Z.to_nat system_size) f) as [f' E].
  - lia.
  - lia.
  - split; simpl.
    + by rewrite length_replicate.
    + apply Forall_replicate. by rewrite length_replicate.
  - simpl. by rewrite sort_length.
  - by rewrite E.
Qed.

(** Whenever the constructor returns, its arguments were valid and the
    object satisfies the invariant. *)
Lemma Flipper_new_Ok_inv (batch_size system_size : Z)
    (local_states : list double) (g : G) f :
  Flipper.Flipper (batch_size, system_size) local_states g = Ok f ->
  1 <= batch_size /\ 1 <= system_size
  /\ wf (Z.to_nat batch_size) (Z.to_nat system_size) (sort local_states) f.
Proof using Hlaws.
  intros E.
  destruct (Z.lt_ge_cases batch_size 1) as [Hb|Hb].
  { assert (Flipper.Flipper (batch_size, system_size) local_states g
            = Throw (InvalidInputError
                       ("invalid batch size: " ++ pretty batch_size
                        ++ "; expected >=1"))) as E'
      by (apply Flipper_new_Throw; by left).
    congruence. }
  destruct (Z.lt_ge_cases system_size 1) as [Hs|Hs].
  { assert (Flipper.Flipper (batch_size, system_size) local_states g
            = Throw (InvalidInputError
                       ("invalid system size: " ++ pretty system_size
                        ++ "; expected >=1"))) as E'
      by (apply Flipper_new_Throw; right; by left).
    congruence. }
  destruct (decide (local_states = [])) as [Hl|Hl].
  { assert (Flipper.Flipper (batch_size, system_size) local_states g
            = Throw (InvalidInputError "invalid local states: []")) as E'
      by (apply Flipper_new_Throw; right; by right).
    congruence. }
  destruct (Z.lt_ge_cases (to_int (Z.of_nat (length local_states))) 2)
    as [Hsz|Hsz].
  { rewrite Flipper_new_Undefined in E by (done || lia). done. }
  destruct (Flipper_new_Ok batch_size system_size local_states g)
    as (f' & E' & Hwf); [lia | lia | lia |].
  split; [lia|]. split; [lia|]. congruence.
Qed.

End Construct.

(** ** The operations of [MetropolisLocalV2] *)

Section SamplerOps.
Context {G : Type} `{RandomSource G} (Hlaws : RandomSourceLaws G).
Implicit Types (s : MetropolisLocalV2.t G) (f : Flipper.t G).

Lemma wf_set_engine (bs ss : nat) (ls : list double) f (g : G) :
  wf bs ss ls f -> wf bs ss ls (Flipper.set_engine g f).
Proof. intros []. by split. Qed.

Lemma proposed_row_length f (j : nat) (row : list double) :
  length (proposed_row f j row) = length row.
Proof.
  unfold proposed_row.
  destruct (Flipper.sites_ f !! j); [|done].
  destruct (Flipper.values_ f !! j); [|done].
  by rewrite length_insert.
Qed.

Lemma shaped_proposed_matrix (bs ss : nat) (ls : list double) f :
  wf bs ss ls f -> shaped bs ss (proposed_matrix f).
Proof.
  intros []. destruct wf_state0 as [Hlen Hrows]. split.
  - unfold proposed_matrix. by rewrite length_imap.
  - apply Forall_lookup_2. intros j row'.
    unfold proposed_matrix. rewrite list_lookup_imap.
    destruct (Flipper.state_ f !! j) as [row|] eqn:E; [|done].
    intros [= <-]. rewrite proposed_row_length.
    by eapply (Forall_lookup_1 _ _ _ _ Hrows).
Qed.

Lemma fill_randoms_returns (bs : nat) s
    (Q : unit -> MetropolisLocalV2.t G -> Prop) :
  length (MetropolisLocalV2.randoms_ s) = bs ->
  (forall rs g,
     length rs = bs -> Forall (fun r => (0 <= r < 1)%R) rs ->
     Q tt (MetropolisLocalV2.set_randoms rs
             (MetropolisLocalV2.set_flipper
                (Flipper.set_engine g (MetropolisLocalV2.flipper_ s)) s))) ->
  returns MetropolisLocalV2.fill_randoms s Q.
Proof using Hlaws.
  intros Hlen HQ. unfold MetropolisLocalV2.fill_randoms.
  apply returns_bind, returns_gets. rewrite Hlen.
  eapply returns_mono.
  - apply (returns_for_range (fun j s1 =>
        exists rs g,
          s1 = MetropolisLocalV2.set_randoms rs
                 (MetropolisLocalV2.set_flipper
                    (Flipper.set_engine g (MetropolisLocalV2.flipper_ s)) s)
          /\ length rs = bs
          /\ Forall (fun r => (0 <= r < 1)%R) (take (Z.to_nat j) rs))).
    + lia.
    + exists (MetropolisLocalV2.randoms_ s),
             (Flipper.engine_ (MetropolisLocalV2.flipper_ s)).
      split; [|split; [done | apply Forall_nil_2]].
      destruct s as [m f X pY cY rs acc]. by destruct f.
    + intros j s1 Hj (rs & g & -> & Hrs & Hin).
      apply returns_bind, returns_zoom, draw_real_returns; [done|].
      intros r g' Hr. simpl.
      apply returns_bind, returns_gets, returns_bind. simpl.
      eapply returns_of_outcome; [apply store_Ok; lia|].
      apply returns_modify.
      exists (<[Z.to_nat j := r]> rs), g'. split_and!.
      * done.
      * by rewrite length_insert.
      * replace (Z.to_nat (j + 1)) with (S (Z.to_nat j)) by lia.
        rewrite (take_S_r _ _ r) by (apply list_lookup_insert_eq; lia).
        rewrite take_insert_ge by lia.
        apply Forall_app. split; [done|]. by apply Forall_singleton.
  - intros [] s1 (rs & g & -> & Hrs & Hin). apply HQ; [done|].
    rewrite firstn_all2 in Hin by lia. done.
Qed.

Lemma same_size_true {A B C} (la : list A) (lb : list B) (lc : list C) :
  length la = length lb -> length lb = length lc ->
  MetropolisLocalV2.same_size la lb lc = true.
Proof.
  intros Hab Hbc. unfold MetropolisLocalV2.same_size.
  by rewrite Hab, Hbc, !Nat.eqb_refl.
Qed.

Lemma length_zip_with3 {A B C D} (h : A -> B -> C -> D)
    (la : list A) (lb : list B) (lc : list C) :
  length la = length lb -> length lb = length lc ->
  length (MetropolisLocalV2.zip_with3 h la lb lc) = length la.
Proof.
  intros Hab Hbc. unfold MetropolisLocalV2.zip_with3.
  rewrite length_zip_with, length_zip. lia.
Qed.

Lemma lookup_zip_with3 {A B C D} (h : A -> B -> C -> D)
    (la : list A) (lb : list B) (lc : list C) (j : nat) (a : A) (b : B)
    (c : C) :
  la !! j = Some a -> lb !! j = Some b -> lc !! j = Some c ->
  MetropolisLocalV2.zip_with3 h la lb lc !! j = Some (h a b c).
Proof.
  intros Ha Hb Hc. unfold MetropolisLocalV2.zip_with3.
  rewrite lookup_zip_with, Ha. simpl.
  assert (zip lb lc !! j = Some (b, c)) as -> by by apply lookup_zip_Some.
  done.
Qed.

(** The first two statements of [Next]: the proposed batch is
    materialised into [proposed_X_], nothing else changes. *)
Lemma Next_materialises (bs ss : nat) (ls : list double) s :
  swf bs ss ls s ->
  zoom MetropolisLocalV2.proposed_X_ MetropolisLocalV2.set_proposed_X
       (Flipper.Read_into (MetropolisLocalV2.flipper_ s)) s
  = (Ok tt, MetropolisLocalV2.set_proposed_X
              (proposed_matrix (MetropolisLocalV2.flipper_ s)) s).
Proof.
  intros Hs. destruct Hs.
  destruct (returns_eq _ _ _
    (Read_into_returns bs ss ls _ _ (fun _ x' => x' = proposed_matrix _)
       swf_flipper0 swf_proposed_X0 eq_refl)) as ([] & x' & E & ->).
  unfold zoom. by rewrite E.
Qed.

(** [Next] when the oracle throws: the exception leaves [Next] after
    the two scratch buffers were written and before anything else. *)
Lemma Next_throws (bs ss : nat) (ls : list double) s (e : exn)
    (y : list complex) :
  swf bs ss ls s ->
  LogVal (MetropolisLocalV2.machine_ s)
         (proposed_matrix (MetropolisLocalV2.flipper_ s))
         (MetropolisLocalV2.proposed_Y_ s) = (Some e, y) ->
  MetropolisLocalV2.Next s
  = (Throw e,
     MetropolisLocalV2.set_proposed_Y y
       (MetropolisLocalV2.set_proposed_X
          (proposed_matrix (MetropolisLocalV2.flipper_ s)) s)).
Proof.
  intros Hs Hy. unfold MetropolisLocalV2.Next.
  rewrite (bind_Ok _ _ s s (MetropolisLocalV2.flipper_ s)) by done.
  rewrite (bind_Ok _ _ _ _ _ (Next_materialises bs ss ls s Hs)).
  erewrite bind_Ok by reflexivity. simpl.
  unfold bind at 1. unfold MetropolisLocalV2.call_LogVal. simpl.
  by rewrite Hy.
Qed.

(** [Next] when the oracle returns. *)
Lemma Next_returns (bs ss : nat) (ls : list double) s (y : list complex) :
  swf bs ss ls s ->
  LogVal (MetropolisLocalV2.machine_ s)
         (proposed_matrix (MetropolisLocalV2.flipper_ s))
         (MetropolisLocalV2.proposed_Y_ s) = (None, y) ->
  exists s', MetropolisLocalV2.Next s = (Ok tt, s')
             /\ stepped s y s' /\ swf bs ss ls s'.
Proof using Hlaws.
  intros Hs Hy. pose proof Hs as [Ho Hf HX HpY HcY Hrs].
  assert (Hylen : length y = bs).
  { pose proof (Ho (proposed_matrix (MetropolisLocalV2.flipper_ s))
                  (MetropolisLocalV2.proposed_Y_ s)) as Hk.
    rewrite Hy in Hk. simpl in Hk. rewrite Hk; [done|].
    unfold proposed_matrix. rewrite length_imap.
    destruct Hf. destruct wf_state0 as [-> _]. done. }
  unfold MetropolisLocalV2.Next.
  rewrite (bind_Ok _ _ s s (MetropolisLocalV2.flipper_ s)) by done.
  rewrite (bind_Ok _ _ _ _ _ (Next_materialises bs ss ls s Hs)).
  erewrite bind_Ok by reflexivity. simpl.
  erewrite bind_Ok;
    [|unfold MetropolisLocalV2.call_LogVal; simpl; by rewrite Hy].
  match goal with |- exists s', ?m ?s0 = _ /\ _ =>
    cut (returns m s0 (fun _ s' => stepped s y s' /\ swf bs ss ls s'))
  end.
  { intros ([] & s' & E & HQ). by exists s'. }
  apply returns_bind, (fill_randoms_returns bs); [done|].
  intros rs g Hrlen Hrin. simpl.
  apply returns_bind, returns_get, returns_bind. simpl.
  apply returns_assert; [apply same_size_true; congruence|].
  apply returns_bind, returns_modify, returns_bind, returns_get. simpl.
  set (acc := MetropolisLocalV2.zip_with3 _ rs y _).
  assert (Hacc : length acc = bs).
  { subst acc. rewrite length_zip_with3; congruence. }
  apply returns_bind, returns_assert; [apply same_size_true; congruence|].
  apply returns_bind, returns_modify, returns_bind, returns_gets. simpl.
  apply returns_zoom. simpl.
  apply (Flipper_Next_returns Hlaws bs ss ls);
    [by apply wf_set_engine | done |].
  intros f1 f' Hwf' Hst1 E Hst'.
  change (committed acc (Flipper.set_engine g (MetropolisLocalV2.flipper_ s)))
    with (committed acc (MetropolisLocalV2.flipper_ s)) in Hst1.
  split.
  - split; simpl; try done.
    + congruence.
    + congruence.
    + destruct Hwf', Hf. congruence.
    + by exists f1.
  - split; simpl; try done.
    + by apply (shaped_proposed_matrix bs ss ls).
    + rewrite length_zip_with3; congruence.
Qed.

(** [Reset]: the chains are redrawn, then the cache is refilled; an
    exception of the oracle leaves the redrawn chains in place. *)
Lemma Reset_run (bs ss : nat) (ls : list double) s :
  swf bs ss ls s ->
  exists f',
    wf bs ss ls f'
    /\ MetropolisLocalV2.Reset s
       = (match (LogVal (MetropolisLocalV2.machine_ s) (Flipper.state_ f')
                        (MetropolisLocalV2.current_Y_ s)).1 with
          | None => Ok tt
          | Some e => Throw e
          end,
          MetropolisLocalV2.set_current_Y
            (LogVal (MetropolisLocalV2.machine_ s) (Flipper.state_ f')
                    (MetropolisLocalV2.current_Y_ s)).2
            (MetropolisLocalV2.set_flipper f' s)).
Proof using Hlaws.
  intros [Ho Hf HX HpY HcY Hrs]. pose proof Hf as Hf'. destruct Hf'.
  destruct (returns_eq _ _ _
    (Reset_returns Hlaws bs ss (MetropolisLocalV2.flipper_ s)
       (fun _ f' => wf bs ss ls f')
       wf_batch0 wf_system0
       ltac:(by rewrite wf_local_states0) wf_state0 wf_sites0 wf_values0
       ltac:(by rewrite wf_local_states0)))
    as ([] & f' & E & Hwf').
  exists f'. split; [done|].
  unfold MetropolisLocalV2.Reset.
  erewrite bind_Ok; [|unfold zoom; by rewrite E].
  erewrite bind_Ok by reflexivity. simpl.
  unfold MetropolisLocalV2.call_LogVal, Flipper.Current. simpl.
  by destruct (LogVal _ _ _) as [[e|] y].
Qed.

Lemma swf_Reset (bs ss : nat) (ls : list double) s :
  swf bs ss ls s -> swf bs ss ls (MetropolisLocalV2.Reset s).2.
Proof using Hlaws.
  intros Hs. destruct (Reset_run bs ss ls s Hs) as (f' & Hwf' & ->).
  destruct Hs as [Ho Hf HX HpY HcY Hrs]. simpl. split; simpl; try done.
  rewrite Ho; [done|]. destruct Hwf'. destruct wf_state0. congruence.
Qed.

Lemma proposed_matrix_length f :
  length (proposed_matrix f) = length (Flipper.state_ f).
Proof. unfold proposed_matrix. by rewrite length_imap. Qed.

Lemma swf_Next (bs ss : nat) (ls : list double) s :
  swf bs ss ls s -> swf bs ss ls (MetropolisLocalV2.Next s).2.
Proof using Hlaws.
  intros Hs.
  destruct (LogVal (MetropolisLocalV2.machine_ s)
              (proposed_matrix (MetropolisLocalV2.flipper_ s))
              (MetropolisLocalV2.proposed_Y_ s)) as [[e|] y] eqn:Hy.
  - rewrite (Next_throws bs ss ls s e y Hs Hy). simpl.
    destruct Hs as [Ho Hf HX HpY HcY Hrs]. split; simpl; try done.
    + by apply (shaped_proposed_matrix bs ss ls).
    + pose proof (Ho (proposed_matrix (MetropolisLocalV2.flipper_ s))
                    (MetropolisLocalV2.proposed_Y_ s)) as Hk.
      rewrite Hy in Hk. simpl in Hk. rewrite Hk; [done|].
      rewrite proposed_matrix_length. destruct Hf.
      destruct wf_state0. congruence.
  - destruct (Next_returns bs ss ls s y Hs Hy) as (s' & -> & _ & Hs').
    done.
Qed.

(** What the constructor builds when it returns. *)
Lemma new_Ok_inv (m : Machine) (batch_size : Z) (g : G) s :
  MetropolisLocalV2.MetropolisLocalV2 m batch_size g = Ok s ->
  exists f y,
    Flipper.Flipper (batch_size, Nvisible m) (LocalStates m) g = Ok f
    /\ LogVal m (Flipper.state_ f) (replicate (Z.to_nat batch_size) czero)
       = (None, y)
    /\ s = MetropolisLocalV2.Build m f
             (replicate (Z.to_nat batch_size)
                        (replicate (Z.to_nat (Nvisible m)) dzero))
             (replicate (Z.to_nat batch_size) czero) y
             (replicate (Z.to_nat batch_size) 0%R)
             (replicate (Z.to_nat batch_size) false).
Proof.
  unfold MetropolisLocalV2.MetropolisLocalV2, CheckBatchSize.
  destruct (batch_size <=? 0); [done|].
  unfold MetropolisLocalV2.MetropolisLocalV2_safe.
  destruct (Flipper.Flipper _ _ _) as [f| |]; try done.
  unfold MetropolisLocalV2.call_LogVal, Flipper.Current. simpl.
  destruct (LogVal m _ _) as [[e|] y] eqn:Ey; [done|].
  intros [= <-]. by exists f, y.
Qed.

Lemma swf_new (m : Machine) (batch_size : Z) (g : G) s :
  LogVal_keeps_size m ->
  MetropolisLocalV2.MetropolisLocalV2 m batch_size g = Ok s ->
  MetropolisLocalV2.machine_ s = m
  /\ swf (Z.to_nat batch_size) (Z.to_nat (Nvisible m))
         (sort (LocalStates m)) s.
Proof using Hlaws.
  intros Ho (f & y & Ef & Ey & ->)%new_Ok_inv.
  apply (Flipper_new_Ok_inv Hlaws) in Ef as (Hb & Hn & Hwf).
  split; [done|]. split; simpl; try done.
  - split; [by rewrite length_replicate|].
    apply Forall_replicate. by rewrite length_replicate.
  - by rewrite length_replicate.
  - pose proof (Ho (Flipper.state_ f)
                  (replicate (Z.to_nat batch_size) czero)) as Hk.
    rewrite Ey, length_replicate in Hk. simpl in Hk. apply Hk.
    destruct Hwf. by destruct wf_state0.
  - by rewrite length_replicate.
Qed.

Lemma Reset_machine s :
  MetropolisLocalV2.machine_ (MetropolisLocalV2.Reset s).2
  = MetropolisLocalV2.machine_ s.
Proof.
  unfold MetropolisLocalV2.Reset, bind, zoom, gets,
    MetropolisLocalV2.call_LogVal.
  destruct (Flipper.Reset _) as [[[]|e|] f']; simpl; try done.
  by destruct (LogVal _ _ _) as [[e|] y].
Qed.

(** Every reachable state satisfies the invariant and still refers to
    the machine it was built on. *)
Lemma reachable_swf (m : Machine) (batch_size : Z) s :
  LogVal_keeps_size m -> reachable m batch_size s ->
  MetropolisLocalV2.machine_ s = m
  /\ swf (Z.to_nat batch_size) (Z.to_nat (Nvisible m))
         (sort (LocalStates m)) s.
Proof using Hlaws.
  intros Ho Hr. induction Hr as [g s E|s Hr [Hm IH]|s Hr [Hm IH]].
  - by apply (swf_new m batch_size g).
  - split; [by rewrite Reset_machine | by apply swf_Reset].
  - split; [|by apply swf_Next].
    destruct (LogVal (MetropolisLocalV2.machine_ s)
                (proposed_matrix (MetropolisLocalV2.flipper_ s))
                (MetropolisLocalV2.proposed_Y_ s)) as [[e|] y] eqn:Hy.
    + by rewrite (Next_throws _ _ _ s e y IH Hy).
    + destruct (Next_returns _ _ _ s y IH Hy) as (s' & -> & Hst & _).
      simpl. destruct Hst. congruence.
Qed.

End SamplerOps.

(** ** The deterministic source obeys the laws *)

Lemma counter_source_laws : RandomSourceLaws Z.
Proof.
  split.
  - intros a b g Hab. simpl. unfold counter_uniform_int. simpl.
    pose proof (Z.mod_pos_bound g (b - a + 1)). lia.
  - intros g. simpl. lra.
Qed.

Lemma pure_oracle_keeps_size (psi : list double -> complex) (m : Machine) :
  pure_oracle psi m -> LogVal_keeps_size m.
Proof.
  intros Hp x out Hlen. rewrite Hp. simpl. by rewrite length_fmap.
Qed.

Lemma zero_machine_pure : pure_oracle (fun _ => czero) zero_machine.
Proof. by intros x out. Qed.

Lemma picky_machine_keeps_size : LogVal_keeps_size picky_machine.
Proof.
  intros x out Hlen. simpl.
  destruct x as [|[|[s|s| |[] m e] r] x]; simpl; try done;
    by rewrite length_fmap.
Qed.

(** ** Invariant I2: the cache of log-amplitudes *)

Lemma commit_cache {G} (psi : list double -> complex) (acc : list bool)
    (f : Flipper.t G) :
  length acc = length (Flipper.state_ f) ->
  MetropolisLocalV2.zip_with3 select acc
    (psi <$> proposed_matrix f) (psi <$> Flipper.state_ f)
  = psi <$> committed acc f.
Proof.
  intros Hlen. apply list_eq. intros j.
  unfold committed, proposed_matrix.
  rewrite list_lookup_fmap, list_lookup_imap.
  destruct (Flipper.state_ f !! j) as [row|] eqn:Hrow; simpl.
  - destruct (lookup_lt_is_Some_2 acc j) as [a Ha].
    { apply lookup_lt_Some in Hrow. lia. }
    rewrite (lookup_zip_with3 _ _ _ _ j a (psi (proposed_row f j row))
               (psi row)).
    + unfold row_after. rewrite Ha. by destruct a.
    + done.
    + by rewrite list_lookup_fmap, list_lookup_imap, Hrow.
    + by rewrite list_lookup_fmap, Hrow.
  - apply lookup_ge_None. apply lookup_ge_None in Hrow.
    rewrite length_zip_with3; rewrite ?length_fmap, ?length_imap; lia.
Qed.

(** With a pure oracle, every reachable state has a consistent cache. *)
Lemma cache_consistent_reachable {G} `{RandomSource G}
    (Hlaws : RandomSourceLaws G) (psi : list double -> complex)
    (m : Machine) (batch_size : Z) (s : MetropolisLocalV2.t G) :
  pure_oracle psi m -> reachable m batch_size s -> cache_consistent psi s.
Proof.
  intros Hp Hr.
  pose proof (pure_oracle_keeps_size psi m Hp) as Ho.
  induction Hr as [g s E|s Hr IH|s Hr IH].
  - apply new_Ok_inv in E as (f & y & _ & Ey & ->).
    rewrite Hp in Ey. injection Ey as <-. done.
  - destruct (reachable_swf Hlaws m batch_size s Ho Hr) as [Hm Hs].
    destruct (Reset_run Hlaws _ _ _ s Hs) as (f' & _ & ->).
    rewrite Hm, Hp. done.
  - destruct (reachable_swf Hlaws m batch_size s Ho Hr) as [Hm Hs].
    destruct (Next_returns Hlaws _ _ _ s
                (psi <$> proposed_matrix (MetropolisLocalV2.flipper_ s)) Hs)
      as (s' & -> & Hst & Hs'); [by rewrite Hm, Hp|].
    simpl. destruct Hst. unfold cache_consistent.
    rewrite stepped_current_Y0, stepped_state0, IH.
    apply commit_cache.
    destruct Hs as [_ [_ _ _ _ [Hrows _] _ _ _ _ _ _] _ _ HcY Hrs].
    rewrite stepped_accept0, length_zip_with3;
      rewrite ?length_fmap, ?proposed_matrix_length; congruence.
Qed.

(** C2: with an oracle that is a pure function of each row, every state
    the sampler can be observed in (after the constructor, after every
    Reset, after every Next) has its cached log-amplitude vector equal,
    entry by entry, to the oracle's values on the rows of the current
    configuration; and from such a state Reset and Next both return
    normally. *)
Theorem cache_consistency {G} `{RandomSource G}
    (psi : list double -> complex) (m : Machine) (batch_size : Z)
    (s : MetropolisLocalV2.t G) :
  RandomSourceLaws G -> pure_oracle psi m -> reachable m batch_size s ->
  cache_consistent psi s
  /\ (forall j row, Flipper.state_ (MetropolisLocalV2.flipper_ s) !! j
                    = Some row ->
        MetropolisLocalV2.current_Y_ s !! j = Some (psi row))
  /\ (exists s', MetropolisLocalV2.Reset s = (Ok tt, s'))
  /\ (exists s', MetropolisLocalV2.Next s = (Ok tt, s')).
Proof.
  intros Hlaws Hp Hr.
  pose proof (pure_oracle_keeps_size psi m Hp) as Ho.
  pose proof (cache_consistent_reachable Hlaws psi m batch_size s Hp Hr)
    as Hc.
  destruct (reachable_swf Hlaws m batch_size s Ho Hr) as [Hm Hs].
  split; [done|]. split; [|split].
  - intros j row Hrow. unfold cache_consistent in Hc.
    by rewrite Hc, list_lookup_fmap, Hrow.
  - destruct (Reset_run Hlaws _ _ _ s Hs) as (f' & _ & E).
    rewrite Hm, Hp in E. simpl in E. eauto.
  - destruct (Next_returns Hlaws _ _ _ s
                (psi <$> proposed_matrix (MetropolisLocalV2.flipper_ s)) Hs)
      as (s' & E & _); [by rewrite Hm, Hp|]. eauto.
Qed.

Lemma cache_consistency_witness :
  exists s, MetropolisLocalV2.MetropolisLocalV2 zero_machine 2 (0 : Z) = Ok s
            /\ cache_consistent (fun _ => czero) s
            /\ (exists s', MetropolisLocalV2.Next s = (Ok tt, s')).
Proof.
  assert (E : exists s, MetropolisLocalV2.MetropolisLocalV2 zero_machine 2 (0 : Z) = Ok s)
    by (eexists; vm_compute; reflexivity).
  destruct E as [s E]. exists s. split; [exact E|].
  pose proof (cache_consistency (fun _ => czero) zero_machine 2 s
                counter_source_laws zero_machine_pure
                (reachable_new zero_machine 2 0 s E)) as (Hc & _ & _ & Hn).
  split; [exact Hc | exact Hn].
Defined.

(** ** Invariant I1: alphabet membership *)

(** C4: in every state the sampler can be observed in, whatever the
    interleaving of Reset, Next and reads that led to it, the
    configuration matrix has its batch_size x system_size shape and each
    of its entries is one of the local states the machine supplied. *)
Theorem alphabet_membership {G} `{RandomSource G} (m : Machine)
    (batch_size : Z) (s : MetropolisLocalV2.t G) :
  RandomSourceLaws G -> LogVal_keeps_size m -> reachable m batch_size s ->
  shaped (Z.to_nat batch_size) (Z.to_nat (Nvisible m))
         (Flipper.state_ (MetropolisLocalV2.flipper_ s))
  /\ forall j row c v,
       Flipper.state_ (MetropolisLocalV2.flipper_ s) !! j = Some row ->
       row !! c = Some v -> v ∈ LocalStates m.
Proof.
  intros Hlaws Ho Hr.
  destruct (reachable_swf Hlaws m batch_size s Ho Hr) as [_ [_ Hf _ _ _ _]].
  destruct Hf. split; [done|].
  intros j row c v Hrow Hv.
  pose proof (Forall_lookup_1 _ _ _ _ wf_within0 Hrow) as Hin.
  pose proof (Forall_lookup_1 _ _ _ _ Hin Hv) as Hv'. simpl in Hv'.
  by apply elem_of_sort.
Qed.

Lemma alphabet_membership_witness :
  exists s, MetropolisLocalV2.MetropolisLocalV2 zero_machine 2 (0 : Z) = Ok s
            /\ forall j row c v,
                 Flipper.state_
                   (MetropolisLocalV2.flipper_
                      (MetropolisLocalV2.Next s).2) !! j = Some row ->
                 row !! c = Some v -> v ∈ [one; minus_one].
Proof.
  assert (E : exists s, MetropolisLocalV2.MetropolisLocalV2 zero_machine 2 (0 : Z) = Ok s)
    by (eexists; vm_compute; reflexivity).
  destruct E as [s E]. exists s. split; [exact E|].
  apply (alphabet_membership zero_machine 2 _ counter_source_laws
           (pure_oracle_keeps_size _ _ zero_machine_pure)
           (reachable_Next _ _ _ (reachable_new zero_machine 2 0 s E))).
Defined.

(** ** The acceptance test *)

Lemma acceptance_formula (p c : complex) :
  MetropolisLocalV2.acceptance p c
  = Rmin 1 (exp (2 * real (csub p c))).
Proof.
  unfold MetropolisLocalV2.acceptance, Rsqr.
  rewrite <- exp_plus, Rmin_comm. f_equal. f_equal. lra.
Qed.


Lemma acceptance_one (p c : complex) :
  (real p >= real c)%R -> MetropolisLocalV2.acceptance p c = 1%R.
Proof.
  intros Hge. rewrite acceptance_formula. apply Rmin_left.
  rewrite <- exp_0. unfold real, csub in *. simpl.
  destruct (Req_dec (2 * (p.1 - c.1)) 0) as [->|Hne]; [lra|].
  left. apply exp_increasing. lra.
Qed.

Lemma Rltb_true (x y : R) : Rltb x y = true <-> (x < y)%R.
Proof. unfold Rltb. by destruct (Rlt_dec x y). Qed.

Section Step.
Context {G : Type} `{RandomSource G} (Hlaws : RandomSourceLaws G).
Implicit Types (s : MetropolisLocalV2.t G).

(** The mask entry of a chain after a completed step. *)
Lemma stepped_accept_lookup (bs ss : nat) (ls : list double) s s'
    (y : list complex) (j : nat) (p c : complex) :
  swf bs ss ls s -> stepped s y s' ->
  y !! j = Some p -> MetropolisLocalV2.current_Y_ s !! j = Some c ->
  exists r, MetropolisLocalV2.randoms_ s' !! j = Some r
            /\ (0 <= r < 1)%R
            /\ MetropolisLocalV2.accept_ s' !! j
               = Some (Rltb r (MetropolisLocalV2.acceptance p c)).
Proof.
  intros Hs Hst Hp Hc. destruct Hst, Hs.
  destruct (lookup_lt_is_Some_2 (MetropolisLocalV2.randoms_ s') j)
    as [r Hr].
  { apply lookup_lt_Some in Hc. lia. }
  exists r. split; [done|]. split.
  - by apply (Forall_lookup_1 _ _ _ _ stepped_randoms0 Hr).
  - rewrite stepped_accept0.
    by apply (lookup_zip_with3
                (fun r p c => Rltb r (MetropolisLocalV2.acceptance p c))
                _ _ _ j r p c).
Qed.

Lemma stepped_accept_length (bs ss : nat) (ls : list double) s s'
    (y : list complex) :
  swf bs ss ls s -> swf bs ss ls s' -> stepped s y s' ->
  length (MetropolisLocalV2.accept_ s') = bs.
Proof.
  intros Hs Hs' Hst. destruct Hst, Hs, Hs'.
  rewrite stepped_accept0, length_zip_with3; congruence.
Qed.

(** The rows and cache entries of a chain after a completed step. *)
Lemma stepped_chain (bs ss : nat) (ls : list double) s s'
    (y : list complex) (j : nat) (a : bool) :
  swf bs ss ls s -> swf bs ss ls s' -> stepped s y s' ->
  MetropolisLocalV2.accept_ s' !! j = Some a ->
  exists row p c,
    Flipper.state_ (MetropolisLocalV2.flipper_ s) !! j = Some row
    /\ y !! j = Some p
    /\ MetropolisLocalV2.current_Y_ s !! j = Some c
    /\ Flipper.state_ (MetropolisLocalV2.flipper_ s') !! j
       = Some (if a then proposed_row (MetropolisLocalV2.flipper_ s) j row
               else row)
    /\ MetropolisLocalV2.current_Y_ s' !! j = Some (if a then p else c).
Proof.
  intros Hs Hs' Hst Ha.
  pose proof (stepped_accept_length bs ss ls s s' y Hs Hs' Hst) as Hlen.
  pose proof (lookup_lt_Some _ _ _ Ha) as Hj.
  destruct Hst, Hs, Hs'. destruct swf_flipper0.
  destruct wf_state0 as [Hrows _].
  assert (length y = bs) as Hy by congruence.
  destruct (lookup_lt_is_Some_2
              (Flipper.state_ (MetropolisLocalV2.flipper_ s)) j)
    as [row Hrow]; [lia|].
  destruct (lookup_lt_is_Some_2 y j) as [p Hp]; [lia|].
  destruct (lookup_lt_is_Some_2 (MetropolisLocalV2.current_Y_ s) j)
    as [c Hc]; [lia|].
  exists row, p, c. split_and!; try done.
  - rewrite stepped_state0. unfold committed.
    rewrite list_lookup_imap, Hrow. simpl. unfold row_after.
    rewrite Ha. by destruct a.
  - rewrite stepped_current_Y0.
    by rewrite (lookup_zip_with3 _ _ _ _ j a p c).
Qed.

End Step.





(** ** Rejected chains and failed steps *)



(** C7: when the oracle call made by Next throws, Next throws the same
    exception and the chain state (configuration matrix, proposed sites
    and values, engine) and the cached log-amplitudes are the ones
    before the call; only the two scratch buffers proposed_X_ and
    proposed_Y_ were written. A retried Next therefore materialises the
    same proposed batch. *)
Theorem oracle_failure_keeps_state {G} `{RandomSource G} (m : Machine)
    (batch_size : Z) (s : MetropolisLocalV2.t G) (e : exn)
    (y : list complex) :
  RandomSourceLaws G -> LogVal_keeps_size m -> reachable m batch_size s ->
  LogVal m (proposed_matrix (MetropolisLocalV2.flipper_ s))
         (MetropolisLocalV2.proposed_Y_ s) = (Some e, y) ->
  exists s',
    MetropolisLocalV2.Next s = (Throw e, s')
    /\ MetropolisLocalV2.flipper_ s' = MetropolisLocalV2.flipper_ s
    /\ MetropolisLocalV2.current_Y_ s' = MetropolisLocalV2.current_Y_ s
    /\ MetropolisLocalV2.Read s' = MetropolisLocalV2.Read s
    /\ Flipper.Read (MetropolisLocalV2.flipper_ s')
       = Flipper.Read (MetropolisLocalV2.flipper_ s)
    /\ proposed_matrix (MetropolisLocalV2.flipper_ s')
       = proposed_matrix (MetropolisLocalV2.flipper_ s)
    /\ MetropolisLocalV2.proposed_X_ s'
       = proposed_matrix (MetropolisLocalV2.flipper_ s)
    /\ MetropolisLocalV2.proposed_Y_ s' = y.
Proof.
  intros Hlaws Ho Hr Hy.
  destruct (reachable_swf Hlaws m batch_size s Ho Hr) as [Hm Hs].
  rewrite <- Hm in Hy.
  eexists. split; [exact (Next_throws _ _ _ s e y Hs Hy)|].
  by split_and!.
Qed.

Lemma oracle_failure_keeps_state_witness :
  exists s s',
    MetropolisLocalV2.MetropolisLocalV2 picky_machine 1 (0 : Z) = Ok s
    /\ MetropolisLocalV2.Next s = (Throw (OracleError "positive spin"), s')
    /\ MetropolisLocalV2.flipper_ s' = MetropolisLocalV2.flipper_ s
    /\ MetropolisLocalV2.current_Y_ s' = MetropolisLocalV2.current_Y_ s.
Proof.
  assert (E : exists s,
            MetropolisLocalV2.MetropolisLocalV2 picky_machine 1 (0 : Z) = Ok s
            /\ LogVal picky_machine
                 (proposed_matrix (MetropolisLocalV2.flipper_ s))
                 (MetropolisLocalV2.proposed_Y_ s)
               = (Some (OracleError "positive spin"), [czero]))
    by (eexists; split; vm_compute; reflexivity).
  destruct E as (s & E & Hy). exists s.
  destruct (oracle_failure_keeps_state picky_machine 1 s _ _
              counter_source_laws picky_machine_keeps_size
              (reachable_new picky_machine 1 0 s E) Hy)
    as (s' & En & Hf & Hc & _).
  exists s'. split; [exact E|]. split; [exact En|]. split; [exact Hf|].
  exact Hc.
Defined.

(** ** Materialising the proposed batch *)

(** C8: on the chain state of any reachable sampler and an output buffer
    of the batch_size x system_size shape, Read(x) returns normally with
    a buffer of the same shape in which row j is the current row j with
    the proposed value written at the proposed site: that entry holds
    the proposed value, every other entry of the row is the current
    one. Read is a const member: the chain state is an argument, not a
    result; and inside Next the call writes proposed_X_ only. *)
Theorem materialize_proposed {G} `{RandomSource G} (m : Machine)
    (batch_size : Z) (s : MetropolisLocalV2.t G) (x : RowMatrix) :
  RandomSourceLaws G -> LogVal_keeps_size m -> reachable m batch_size s ->
  shaped (Z.to_nat batch_size) (Z.to_nat (Nvisible m)) x ->
  let f := MetropolisLocalV2.flipper_ s in
  exists x',
    Flipper.Read_into f x = (Ok tt, x')
    /\ shaped (Z.to_nat batch_size) (Z.to_nat (Nvisible m)) x'
    /\ (forall j row,
          Flipper.state_ f !! j = Some row ->
          exists site v row',
            Flipper.sites_ f !! j = Some site
            /\ Flipper.values_ f !! j = Some v
            /\ 0 <= site < Nvisible m
            /\ x' !! j = Some row'
            /\ length row' = length row
            /\ row' !! Z.to_nat site = Some v
            /\ forall c, c <> Z.to_nat site -> row' !! c = row !! c)
    /\ zoom MetropolisLocalV2.proposed_X_ MetropolisLocalV2.set_proposed_X
            (Flipper.Read_into f) s
       = (Ok tt, MetropolisLocalV2.set_proposed_X x' s).
Proof.
  intros Hlaws Ho Hr Hx f.
  destruct (reachable_swf Hlaws m batch_size s Ho Hr) as [Hm Hs].
  pose proof Hs as [_ Hf _ _ _ _]. fold f in Hf.
  destruct (returns_eq _ _ _
    (Read_into_returns _ _ _ f x (fun _ x' => x' = proposed_matrix f)
       Hf Hx eq_refl)) as ([] & x' & E & ->).
  exists (proposed_matrix f). split; [done|].
  split; [by eapply shaped_proposed_matrix|].
  split; [|by eapply Next_materialises].
  intros j row Hrow. destruct Hf.
  pose proof (lookup_lt_Some _ _ _ Hrow) as Hj.
  destruct wf_state0 as [Hrows Hcols].
  destruct (lookup_lt_is_Some_2 (Flipper.sites_ f) j) as [site Hsite];
    [lia|].
  destruct (lookup_lt_is_Some_2 (Flipper.values_ f) j) as [v Hv]; [lia|].
  pose proof (Forall_lookup_1 _ _ _ _ wf_sites_range0 Hsite) as Hrange.
  pose proof (Forall_lookup_1 _ _ _ _ Hcols Hrow) as Hlen.
  simpl in Hrange, Hlen.
  exists site, v, (<[Z.to_nat site := v]> row).
  split; [done|]. split; [done|]. split; [lia|]. split.
  { unfold proposed_matrix. rewrite list_lookup_imap, Hrow. simpl.
    unfold proposed_row. by rewrite Hsite, Hv. }
  split; [by rewrite length_insert|]. split.
  - apply list_lookup_insert_eq. lia.
  - intros c Hc. by apply list_lookup_insert_ne.
Qed.

Lemma materialize_proposed_witness :
  exists s x',
    MetropolisLocalV2.MetropolisLocalV2 zero_machine 2 (0 : Z) = Ok s
    /\ Flipper.Read_into (MetropolisLocalV2.flipper_ s)
         [[one; one]; [one; one]] = (Ok tt, x')
    /\ shaped 2 2 x'.
Proof.
  assert (E : exists s, MetropolisLocalV2.MetropolisLocalV2 zero_machine 2 (0 : Z) = Ok s)
    by (eexists; vm_compute; reflexivity).
  destruct E as [s E]. exists s.
  assert (Hx : shaped (Z.to_nat 2) (Z.to_nat (Nvisible zero_machine))
                      [[one; one]; [one; one]]).
  { split; [reflexivity|]. repeat constructor. }
  destruct (materialize_proposed zero_machine 2 s [[one; one]; [one; one]]
              counter_source_laws
              (pure_oracle_keeps_size _ _ zero_machine_pure)
              (reachable_new zero_machine 2 0 s E) Hx)
    as (x' & Ex & Hsh & _).
  exists x'. split; [exact E|]. split; [exact Ex | exact Hsh].
Defined.

(** ** Construction *)





(** C9 fails on the code: an alphabet of one value passes the validation
    of the constructor (the only alphabet check is for emptiness), the
    range drawn from by RandomValues is then [0, -1], and the draw made
    for the first chain, already inside the constructor's Reset, is
    undefined. *)
Theorem singleton_alphabet_inverted_range {G} `{RandomSource G}
    (batch_size system_size : Z) (v : double) (g : G) :
  RandomSourceLaws G -> 1 <= batch_size -> 1 <= system_size ->
  to_int (Z.of_nat (length [v])) - 2 = -1
  /\ (forall e, Flipper.Flipper (batch_size, system_size) [v] g <> Throw e)
  /\ (forall f : Flipper.t G,
        Flipper.draw_int 0 (to_int (Z.of_nat (length [v])) - 2) f
        = (Undefined, f))
  /\ (forall f : Flipper.t G,
        1 <= Flipper.BatchSize f -> Flipper.local_states_ f = [v] ->
        Flipper.RandomValues f = (Undefined, f))
  /\ Flipper.Flipper (batch_size, system_size) [v] g = Undefined.
Proof.
  intros Hlaws Hb Hs.
  assert (Hsz : to_int (Z.of_nat (length [v])) = 1) by done.
  split; [by rewrite Hsz|]. split; [|split; [|split]].
  - intros e [(? & _)|[(_ & ? & _)|(_ & _ & ? & _)]]%Flipper_new_Throw;
      [lia | lia | done].
  - intros f. apply draw_int_undefined. lia.
  - intros f Hbs Hl. apply RandomValues_undefined; [done|]. by rewrite Hl.
  - apply (Flipper_new_Undefined Hlaws); [done | done | done | lia].
Qed.

Lemma singleton_alphabet_inverted_range_witness :
  to_int (Z.of_nat (length [one])) - 2 = -1
  /\ Flipper.Flipper (1, 1) [one] (0 : Z) = Undefined.
Proof.
  destruct (singleton_alphabet_inverted_range 1 1 one (0 : Z)
              counter_source_laws ltac:(lia) ltac:(lia))
    as (Hrange & _ & _ & _ & Hnew).
  split; [exact Hrange | exact Hnew].
Defined.

(** ** Invariant I3: no self-transition *)

(** On a sampler whose stored alphabet is strictly ascending, every
    pending proposal differs from the value its chain holds at the
    proposed site. *)
Lemma no_self_transition {G} `{RandomSource G} (m : Machine)
    (batch_size : Z) (s : MetropolisLocalV2.t G) :
  RandomSourceLaws G -> LogVal_keeps_size m -> reachable m batch_size s ->
  strictly_ascending (sort (LocalStates m)) ->
  let f := MetropolisLocalV2.flipper_ s in
  forall j site v row cur,
    Flipper.sites_ f !! j = Some site -> Flipper.values_ f !! j = Some v ->
    Flipper.state_ f !! j = Some row -> row !! Z.to_nat site = Some cur ->
    v <> cur /\ deq v cur = false.
Proof.
  intros Hlaws Ho Hr Hasc f j site v row cur Hsite Hv Hrow Hcur.
  destruct (reachable_swf Hlaws m batch_size s Ho Hr) as [_ [_ Hf _ _ _ _]].
  fold f in Hf. destruct Hf.
  destruct (wf_proposals0 j v Hv)
    as (site' & row' & cur' & idx & Hsite' & _ & Hrow' & Hcur' & Hidx & E).
  assert (site' = site) as -> by congruence.
  assert (row' = row) as -> by congruence.
  assert (cur' = cur) as -> by congruence.
  pose proof (Forall_lookup_1 _ _ _ _ wf_within0 Hrow) as Hin.
  pose proof (Forall_lookup_1 _ _ _ _ Hin Hcur) as Hcin. simpl in Hcin.
  destruct (shifted_value_differs (sort (LocalStates m)) cur idx)
    as (v' & E' & _ & Hne & Hdeq); [done | done | |].
  { unfold alphabet_ok in wf_alphabet0. lia. }
  assert (v' = v) as -> by congruence. done.
Qed.

(** The same from the alphabet the machine supplies: distinct values,
    none of them NaN. *)
Lemma no_self_transition_distinct {G} `{RandomSource G} (m : Machine)
    (batch_size : Z) (s : MetropolisLocalV2.t G) :
  RandomSourceLaws G -> LogVal_keeps_size m -> reachable m batch_size s ->
  Forall (fun y => y <> S754_nan) (LocalStates m) ->
  pairwise_distinct (LocalStates m) ->
  let f := MetropolisLocalV2.flipper_ s in
  forall j site v row cur,
    Flipper.sites_ f !! j = Some site -> Flipper.values_ f !! j = Some v ->
    Flipper.state_ f !! j = Some row -> row !! Z.to_nat site = Some cur ->
    v <> cur /\ deq v cur = false.
Proof.
  intros Hlaws Ho Hr Hnan Hd.
  apply (no_self_transition m batch_size s Hlaws Ho Hr).
  by apply sort_strictly_ascending.
Qed.

(** ** The calls of a reachable sampler are defined *)

(** From a reachable state neither [Reset] nor [Next] runs into
    undefined behaviour: each returns or throws what the oracle threw. *)
Lemma reachable_defined {G} `{RandomSource G} (m : Machine)
    (batch_size : Z) (s : MetropolisLocalV2.t G) :
  RandomSourceLaws G -> LogVal_keeps_size m -> reachable m batch_size s ->
  (MetropolisLocalV2.Reset s).1 <> Undefined
  /\ (MetropolisLocalV2.Next s).1 <> Undefined.
Proof.
  intros Hlaws Ho Hr.
  destruct (reachable_swf Hlaws m batch_size s Ho Hr) as [_ Hs]. split.
  - destruct (Reset_run Hlaws _ _ _ s Hs) as (f' & _ & ->). simpl.
    by destruct (LogVal _ _ _).1.
  - destruct (LogVal (MetropolisLocalV2.machine_ s)
                (proposed_matrix (MetropolisLocalV2.flipper_ s))
                (MetropolisLocalV2.proposed_Y_ s)) as [[e|] y] eqn:Hy.
    + by rewrite (Next_throws _ _ _ s e y Hs Hy).
    + by destruct (Next_returns Hlaws _ _ _ s y Hs Hy) as (s' & -> & _).
Qed.

(** ** An end-to-end run *)

Lemma committed_all_true {G} (f : Flipper.t G) (acc : list bool) :
  length acc = length (Flipper.state_ f) ->
  Forall (fun a => a = true) acc ->
  committed acc f = proposed_matrix f.
Proof.
  intros Hlen Hall. unfold committed, proposed_matrix.
  apply list_eq. intros j. rewrite !list_lookup_imap.
  destruct (Flipper.state_ f !! j) as [row|] eqn:Hrow; [|done]. simpl.
  destruct (lookup_lt_is_Some_2 acc j) as [a Ha].
  { apply lookup_lt_Some in Hrow. lia. }
  unfold row_after. rewrite Ha.
  by rewrite (Forall_lookup_1 _ _ _ _ Hall Ha).
Qed.

(** Two chains of two spins, an oracle that is 0 everywhere: every
    proposed move is accepted, and after one step each chain holds its
    proposed value at its proposed site. *)
Lemma end_to_end_scenario :
  exists s s',
    MetropolisLocalV2.MetropolisLocalV2 zero_machine 2 (0 : Z) = Ok s
    /\ MetropolisLocalV2.Next s = (Ok tt, s')
    /\ Forall (fun a => a = true) (MetropolisLocalV2.accept_ s')
    /\ Flipper.state_ (MetropolisLocalV2.flipper_ s')
       = proposed_matrix (MetropolisLocalV2.flipper_ s).
Proof.
  assert (E : exists s,
            MetropolisLocalV2.MetropolisLocalV2 zero_machine 2 (0 : Z) = Ok s)
    by (eexists; vm_compute; reflexivity).
  destruct E as [s E]. exists s.
  pose proof (reachable_new zero_machine 2 0 s E) as Hr.
  pose proof (pure_oracle_keeps_size _ _ zero_machine_pure) as Ho.
  destruct (reachable_swf counter_source_laws _ _ s Ho Hr) as [Hm Hs].
  pose proof (cache_consistent_reachable counter_source_laws
                (fun _ => czero) zero_machine 2 s zero_machine_pure Hr)
    as Hc.
  destruct (Next_returns counter_source_laws _ _ _ s
              ((fun _ => czero)
                 <$> proposed_matrix (MetropolisLocalV2.flipper_ s)) Hs)
    as (s' & En & Hst & Hs'); [by rewrite Hm|].
  exists s'. split; [done|]. split; [done|].
  pose proof (stepped_accept_length _ _ _ s s' _ Hs Hs' Hst) as Hlen.
  assert (Hall : Forall (fun a => a = true) (MetropolisLocalV2.accept_ s')).
  { apply Forall_lookup_2. intros j a Ha.
    destruct (stepped_chain _ _ _ s s' _ j a Hs Hs' Hst Ha)
      as (row & p & c & Hrow & Hp & Hcj & _).
    destruct (stepped_accept_lookup _ _ _ s s' _ j p c Hs Hst Hp Hcj)
      as (r & _ & Hrange & Ha').
    rewrite Ha in Ha'. injection Ha' as ->.
    rewrite Hc, list_lookup_fmap in Hcj.
    rewrite list_lookup_fmap in Hp.
    destruct (_ !! j) in Hcj; [|done]. destruct (_ !! j) in Hp; [|done].
    simpl in *. injection Hcj as <-. injection Hp as <-.
    rewrite acceptance_one by (unfold real, czero; simpl; lra).
    apply Rltb_true. lra. }
  split; [done|].
  destruct Hst. rewrite stepped_state0. apply committed_all_true; [|done].
  destruct Hs as [_ [_ _ _ _ [Hrows _] _ _ _ _ _ _] _ _ _ _]. congruence.
Qed.

(** * Further properties of the code *)

(** ** The stored alphabet *)

Lemma spin_half_distinct : pairwise_distinct [one; minus_one].
Proof.
  intros i j x y Hij Hi Hj.
  destruct i as [|[|i]], j as [|[|j]]; try lia; try done.
  by injection Hi as <-; injection Hj as <-.
Qed.

Lemma spin_half_not_nan :
  Forall (fun y : double => y <> S754_nan) [one; minus_one].
Proof. by repeat constructor. Qed.



(** ** Pending proposals *)

(** X2: in every reachable state of a sampler whose machine supplies
    distinct local states, none of them NaN, the value proposed for a
    chain differs from the value the chain currently holds at its
    proposed site (for Leibniz equality and for operator==). *)
Theorem proposals_differ_from_current {G} `{RandomSource G} (m : Machine)
    (batch_size : Z) (s : MetropolisLocalV2.t G) :
  RandomSourceLaws G -> LogVal_keeps_size m -> reachable m batch_size s ->
  Forall (fun y => y <> S754_nan) (LocalStates m) ->
  pairwise_distinct (LocalStates m) ->
  let f := MetropolisLocalV2.flipper_ s in
  forall j site v row cur,
    Flipper.sites_ f !! j = Some site -> Flipper.values_ f !! j = Some v ->
    Flipper.state_ f !! j = Some row -> row !! Z.to_nat site = Some cur ->
    v <> cur /\ deq v cur = false.
Proof.
  intros Hlaws Ho Hr Hnan Hd.
  apply (no_self_transition m batch_size s Hlaws Ho Hr).
  by apply sort_strictly_ascending.
Qed.

Lemma proposals_differ_from_current_witness :
  exists s,
    MetropolisLocalV2.MetropolisLocalV2 zero_machine 2 (0 : Z) = Ok s
    /\ forall j site v row cur,
         Flipper.sites_ (MetropolisLocalV2.flipper_ s) !! j = Some site ->
         Flipper.values_ (MetropolisLocalV2.flipper_ s) !! j = Some v ->
         Flipper.state_ (MetropolisLocalV2.flipper_ s) !! j = Some row ->
         row !! Z.to_nat site = Some cur ->
         v <> cur /\ deq v cur = false.
Proof.
  assert (E : exists s,
            MetropolisLocalV2.MetropolisLocalV2 zero_machine 2 (0 : Z) = Ok s)
    by (eexists; vm_compute; reflexivity).
  destruct E as [s E]. exists s. split; [exact E|].
  exact (proposals_differ_from_current zero_machine 2 s counter_source_laws
           (pure_oracle_keeps_size _ _ zero_machine_pure)
           (reachable_new zero_machine 2 0 s E)
           spin_half_not_nan spin_half_distinct).
Defined.

(** X3: in every reachable state Read() exposes exactly batch_size
    diffs; the diff of chain j holds one site and one value, namely
    sites_(j) and values_(j); the site is a valid column index and the
    value is one of the machine's local states. *)
Theorem pending_diffs_well_formed {G} `{RandomSource G} (m : Machine)
    (batch_size : Z) (s : MetropolisLocalV2.t G) :
  RandomSourceLaws G -> LogVal_keeps_size m -> reachable m batch_size s ->
  let f := MetropolisLocalV2.flipper_ s in
  length (Flipper.Read f) = Z.to_nat batch_size
  /\ forall j d,
       Flipper.Read f !! j = Some d ->
       exists site v,
         d = {| Flipper.sites := [site]; Flipper.values := [v] |}
         /\ Flipper.sites_ f !! j = Some site
         /\ Flipper.values_ f !! j = Some v
         /\ 0 <= site < Nvisible m
         /\ v ∈ LocalStates m.
Proof.
  intros Hlaws Ho Hr f.
  destruct (reachable_swf Hlaws m batch_size s Ho Hr) as [_ [_ Hf _ _ _ _]].
  fold f in Hf. destruct Hf. split.
  - unfold Flipper.Read. rewrite length_zip_with. lia.
  - intros j d Hd. unfold Flipper.Read in Hd.
    apply lookup_zip_with_Some in Hd as (site & v & -> & Hsite & Hv).
    exists site, v. split; [done|]. split; [done|]. split; [done|].
    pose proof (Forall_lookup_1 _ _ _ _ wf_sites_range0 Hsite) as Hrange.
    pose proof (Forall_lookup_1 _ _ _ _ wf_values_within0 Hv) as Hin.
    simpl in Hrange, Hin. split; [lia | by apply elem_of_sort].
Qed.

Lemma pending_diffs_well_formed_witness :
  exists s,
    MetropolisLocalV2.MetropolisLocalV2 zero_machine 2 (0 : Z) = Ok s
    /\ length (Flipper.Read (MetropolisLocalV2.flipper_ s)) = 2%nat.
Proof.
  assert (E : exists s,
            MetropolisLocalV2.MetropolisLocalV2 zero_machine 2 (0 : Z) = Ok s)
    by (eexists; vm_compute; reflexivity).
  destruct E as [s E]. exists s. split; [exact E|].
  exact (proj1 (pending_diffs_well_formed zero_machine 2 s
                  counter_source_laws
                  (pure_oracle_keeps_size _ _ zero_machine_pure)
                  (reachable_new zero_machine 2 0 s E))).
Defined.

(** X4: on a sampler whose machine supplies distinct local states, none
    of them NaN, the batch the oracle is asked about in Next differs
    from the current configuration in exactly one entry of every row:
    the entry at the chain's proposed site. *)
Theorem proposal_changes_one_entry {G} `{RandomSource G} (m : Machine)
    (batch_size : Z) (s : MetropolisLocalV2.t G) :
  RandomSourceLaws G -> LogVal_keeps_size m -> reachable m batch_size s ->
  Forall (fun y => y <> S754_nan) (LocalStates m) ->
  pairwise_distinct (LocalStates m) ->
  let f := MetropolisLocalV2.flipper_ s in
  length (proposed_matrix f) = length (Flipper.state_ f)
  /\ forall j row,
       Flipper.state_ f !! j = Some row ->
       exists row' site,
         proposed_matrix f !! j = Some row'
         /\ Flipper.sites_ f !! j = Some site
         /\ length row' = length row
         /\ forall c, row' !! c <> row !! c <-> c = Z.to_nat site.
Proof.
  intros Hlaws Ho Hr Hnan Hd f.
  split; [apply proposed_matrix_length|].
  intros j row Hrow.
  pose proof (no_self_transition m batch_size s Hlaws Ho Hr
                (sort_strictly_ascending _ Hnan Hd)) as Hne. fold f in Hne.
  destruct (reachable_swf Hlaws m batch_size s Ho Hr) as [_ [_ Hf _ _ _ _]].
  fold f in Hf. destruct Hf.
  pose proof (lookup_lt_Some _ _ _ Hrow) as Hj.
  destruct wf_state0 as [Hrows Hcols].
  destruct (lookup_lt_is_Some_2 (Flipper.sites_ f) j) as [site Hsite];
    [lia|].
  destruct (lookup_lt_is_Some_2 (Flipper.values_ f) j) as [v Hv]; [lia|].
  pose proof (Forall_lookup_1 _ _ _ _ wf_sites_range0 Hsite) as Hrange.
  pose proof (Forall_lookup_1 _ _ _ _ Hcols Hrow) as Hlen.
  simpl in Hrange, Hlen.
  destruct (lookup_lt_is_Some_2 row (Z.to_nat site)) as [cur Hcur]; [lia|].
  destruct (Hne j site v row cur Hsite Hv Hrow Hcur) as [Hvc _].
  exists (<[Z.to_nat site := v]> row), site.
  split.
  { unfold proposed_matrix. rewrite list_lookup_imap, Hrow. simpl.
    unfold proposed_row. by rewrite Hsite, Hv. }
  split; [done|]. split; [by rewrite length_insert|].
  intros c. split.
  - intros Hc. destruct (decide (c = Z.to_nat site)) as [|Hneq]; [done|].
    by rewrite list_lookup_insert_ne in Hc.
  - intros ->. rewrite list_lookup_insert_eq by lia. rewrite Hcur.
    congruence.
Qed.

Lemma proposal_changes_one_entry_witness :
  exists s,
    MetropolisLocalV2.MetropolisLocalV2 zero_machine 2 (0 : Z) = Ok s
    /\ length (proposed_matrix (MetropolisLocalV2.flipper_ s))
       = length (Flipper.state_ (MetropolisLocalV2.flipper_ s)).
Proof.
  assert (E : exists s,
            MetropolisLocalV2.MetropolisLocalV2 zero_machine 2 (0 : Z) = Ok s)
    by (eexists; vm_compute; reflexivity).
  destruct E as [s E]. exists s. split; [exact E|].
  exact (proj1 (proposal_changes_one_entry zero_machine 2 s
                  counter_source_laws
                  (pure_oracle_keeps_size _ _ zero_machine_pure)
                  (reachable_new zero_machine 2 0 s E)
                  spin_half_not_nan spin_half_distinct)).
Defined.

(** ** The sampler's constructor *)

(** X5: the public constructor validates in a fixed order and does not
    consult the oracle before validation has passed. A batch size <= 0
    is reported by CheckBatchSize ("expected a positive number"),
    whatever the machine, so the batch-size check of the chain state's
    own constructor, which would report "expected >=1", is never the one
    that fires. Then a machine with fewer than one site is reported by
    the chain state's constructor, then an empty list of local
    states. *)
Theorem sampler_constructor_validation {G} `{RandomSource G} (m : Machine)
    (batch_size : Z) (g : G) :
  (batch_size <= 0 ->
     MetropolisLocalV2.MetropolisLocalV2 m batch_size g
     = Throw (InvalidInputError
                ("invalid batch size: " ++ pretty batch_size
                 ++ "; expected a positive number"))
     /\ Flipper.Flipper (batch_size, Nvisible m) (LocalStates m) g
        = Throw (InvalidInputError
                   ("invalid batch size: " ++ pretty batch_size
                    ++ "; expected >=1")))
  /\ (1 <= batch_size -> Nvisible m < 1 ->
        MetropolisLocalV2.MetropolisLocalV2 m batch_size g
        = Throw (InvalidInputError
                   ("invalid system size: " ++ pretty (Nvisible m)
                    ++ "; expected >=1")))
  /\ (1 <= batch_size -> 1 <= Nvisible m -> LocalStates m = [] ->
        MetropolisLocalV2.MetropolisLocalV2 m batch_size g
        = Throw (InvalidInputError "invalid local states: []")).
Proof.
  unfold MetropolisLocalV2.MetropolisLocalV2, CheckBatchSize,
    MetropolisLocalV2.MetropolisLocalV2_safe.
  split; [|split].
  - intros Hb. split.
    + by destruct (Z.leb_spec batch_size 0); [|lia].
    + apply Flipper_new_Throw. left. split; [lia | done].
  - intros Hb Hn. destruct (Z.leb_spec batch_size 0); [lia|].
    assert (Flipper.Flipper (batch_size, Nvisible m) (LocalStates m) g
            = Throw (InvalidInputError
                       ("invalid system size: " ++ pretty (Nvisible m)
                        ++ "; expected >=1"))) as ->; [|done].
    apply Flipper_new_Throw. right. left. auto.
  - intros Hb Hn Hl. destruct (Z.leb_spec batch_size 0); [lia|].
    assert (Flipper.Flipper (batch_size, Nvisible m) (LocalStates m) g
            = Throw (InvalidInputError "invalid local states: []")) as ->;
      [|done].
    apply Flipper_new_Throw. right. right. auto.
Qed.

(** X6: once validation has passed (sizes >= 1, at least two local
    states, their count fitting an int), the constructor builds the
    chain state and evaluates the oracle exactly on its initial
    configuration: if the oracle throws, the constructor throws the same
    exception; if it returns y, the constructor returns a sampler whose
    Read() is that configuration paired with y. *)
Theorem sampler_constructor_oracle {G} `{RandomSource G} (m : Machine)
    (batch_size : Z) (g : G) :
  RandomSourceLaws G -> 1 <= batch_size -> 1 <= Nvisible m ->
  2 <= Z.of_nat (length (LocalStates m)) < 2 ^ 31 ->
  exists f,
    Flipper.Flipper (batch_size, Nvisible m) (LocalStates m) g = Ok f
    /\ (forall e y,
          LogVal m (Flipper.Current f)
                 (replicate (Z.to_nat batch_size) czero) = (Some e, y) ->
          MetropolisLocalV2.MetropolisLocalV2 m batch_size g = Throw e)
    /\ (forall y,
          LogVal m (Flipper.Current f)
                 (replicate (Z.to_nat batch_size) czero) = (None, y) ->
          exists s,
            MetropolisLocalV2.MetropolisLocalV2 m batch_size g = Ok s
            /\ MetropolisLocalV2.machine_ s = m
            /\ MetropolisLocalV2.flipper_ s = f
            /\ MetropolisLocalV2.Read s = (Flipper.Current f, y)).
Proof.
  intros Hlaws Hb Hn Hl.
  destruct (Flipper_new_Ok Hlaws batch_size (Nvisible m) (LocalStates m) g)
    as (f & Ef & _); [done | done | rewrite to_int_small; lia |].
  exists f. split; [done|].
  unfold MetropolisLocalV2.MetropolisLocalV2, CheckBatchSize,
    MetropolisLocalV2.MetropolisLocalV2_safe.
  destruct (Z.leb_spec batch_size 0); [lia|]. rewrite Ef.
  unfold MetropolisLocalV2.call_LogVal. simpl. split.
  - intros e y ->. done.
  - intros y ->. eexists. split; [done|]. done.
Qed.

Lemma sampler_constructor_oracle_witness :
  exists f s,
    Flipper.Flipper (2, 2) [one; minus_one] (0 : Z) = Ok f
    /\ MetropolisLocalV2.MetropolisLocalV2 zero_machine 2 (0 : Z) = Ok s
    /\ MetropolisLocalV2.Read s = (Flipper.Current f, [czero; czero]).
Proof.
  destruct (sampler_constructor_oracle zero_machine 2 (0 : Z)
              counter_source_laws ltac:(lia) ltac:(simpl; lia)
              ltac:(simpl; lia))
    as (f & Ef & _ & Hok).
  exists f.
  destruct (Hok ((fun _ => czero) <$> Flipper.Current f) eq_refl)
    as (s & Es & _ & Hf & Hread).
  exists s. split; [exact Ef|]. split; [exact Es|].
  rewrite Hread. f_equal.
  assert (Ef' : exists f0,
            Flipper.Flipper (2, 2) [one; minus_one] (0 : Z) = Ok f0
            /\ (fun _ : list double => czero) <$> Flipper.Current f0
               = [czero; czero])
    by (eexists; split; vm_compute; reflexivity).
  destruct Ef' as (f0 & Ef0 & Hy).
  change (Nvisible zero_machine) with 2 in Ef.
  change (LocalStates zero_machine) with [one; minus_one] in Ef.
  rewrite Ef in Ef0. injection Ef0 as <-. exact Hy.
Defined.

(** ** Reset *)

(** X7: Reset of a reachable sampler always completes the redraw of the
    chain state (configuration and proposals) before it consults the
    oracle on the new configuration. If the oracle returns y, Reset
    returns and Read() is the new configuration paired with y, whatever
    the cache held before. If the oracle throws, Reset throws the same
    exception and the sampler is left with the redrawn chain state (the
    old configuration is gone) and with what the oracle left in
    current_Y_: unlike Next, Reset does not keep the state on failure. *)
Theorem Reset_outcomes {G} `{RandomSource G} (m : Machine)
    (batch_size : Z) (s : MetropolisLocalV2.t G) :
  RandomSourceLaws G -> LogVal_keeps_size m -> reachable m batch_size s ->
  exists f',
    Flipper.Reset (MetropolisLocalV2.flipper_ s) = (Ok tt, f')
    /\ shaped (Z.to_nat batch_size) (Z.to_nat (Nvisible m))
              (Flipper.state_ f')
    /\ (forall y,
          LogVal m (Flipper.state_ f') (MetropolisLocalV2.current_Y_ s)
          = (None, y) ->
          exists s',
            MetropolisLocalV2.Reset s = (Ok tt, s')
            /\ MetropolisLocalV2.flipper_ s' = f'
            /\ MetropolisLocalV2.Read s' = (Flipper.state_ f', y))
    /\ (forall e y,
          LogVal m (Flipper.state_ f') (MetropolisLocalV2.current_Y_ s)
          = (Some e, y) ->
          exists s',
            MetropolisLocalV2.Reset s = (Throw e, s')
            /\ MetropolisLocalV2.flipper_ s' = f'
            /\ MetropolisLocalV2.current_Y_ s' = y).
Proof.
  intros Hlaws Ho Hr.
  destruct (reachable_swf Hlaws m batch_size s Ho Hr) as [Hm Hs].
  pose proof Hs as [_ Hf _ _ _ _]. pose proof Hf as Hf'. destruct Hf'.
  destruct (returns_eq _ _ _
    (Reset_returns Hlaws _ _ (MetropolisLocalV2.flipper_ s)
       (fun _ f' => wf (Z.to_nat batch_size) (Z.to_nat (Nvisible m))
                       (sort (LocalStates m)) f')
       wf_batch0 wf_system0
       ltac:(by rewrite wf_local_states0) wf_state0 wf_sites0 wf_values0
       ltac:(by rewrite wf_local_states0)))
    as ([] & f' & E & Hwf').
  exists f'. split; [done|]. split; [by destruct Hwf'|].
  assert (Erun : forall r y,
            LogVal m (Flipper.state_ f') (MetropolisLocalV2.current_Y_ s)
            = (r, y) ->
            MetropolisLocalV2.Reset s
            = (match r with None => Ok tt | Some e => Throw e end,
               MetropolisLocalV2.set_current_Y y
                 (MetropolisLocalV2.set_flipper f' s))).
  { intros r y Hy. unfold MetropolisLocalV2.Reset.
    erewrite bind_Ok; [|unfold zoom; by rewrite E].
    erewrite bind_Ok by reflexivity. simpl.
    unfold MetropolisLocalV2.call_LogVal, Flipper.Current. simpl.
    rewrite Hm, Hy. by destruct r. }
  split.
  - intros y Hy. eexists. split; [exact (Erun None y Hy)|]. done.
  - intros e y Hy. eexists. split; [exact (Erun (Some e) y Hy)|]. done.
Qed.

Lemma Reset_outcomes_witness :
  exists s s',
    MetropolisLocalV2.MetropolisLocalV2 zero_machine 2 (0 : Z) = Ok s
    /\ MetropolisLocalV2.Reset s = (Ok tt, s')
    /\ shaped 2 2 (Flipper.state_ (MetropolisLocalV2.flipper_ s')).
Proof.
  assert (E : exists s,
            MetropolisLocalV2.MetropolisLocalV2 zero_machine 2 (0 : Z) = Ok s)
    by (eexists; vm_compute; reflexivity).
  destruct E as [s E]. exists s.
  destruct (Reset_outcomes zero_machine 2 s counter_source_laws
              (pure_oracle_keeps_size _ _ zero_machine_pure)
              (reachable_new zero_machine 2 0 s E))
    as (f' & _ & Hsh & Hok & _).
  destruct (Hok _ eq_refl) as (s' & Er & Hf & _).
  exists s'. split; [exact E|]. split; [exact Er|].
  rewrite Hf. exact Hsh.
Defined.

(** ** Next *)

(** X8: in a step on which the oracle returns, a chain whose mask entry
    is true has its row replaced by the proposed row, that is the row
    the oracle was asked about (row j of proposed_X_): the proposed
    value sits at the proposed site and the other entries are kept; and
    its cached log-amplitude becomes the oracle's value for that row. *)
Theorem accepted_chains_committed {G} `{RandomSource G} (m : Machine)
    (batch_size : Z) (s : MetropolisLocalV2.t G) (y : list complex) :
  RandomSourceLaws G -> LogVal_keeps_size m -> reachable m batch_size s ->
  LogVal m (proposed_matrix (MetropolisLocalV2.flipper_ s))
         (MetropolisLocalV2.proposed_Y_ s) = (None, y) ->
  let f := MetropolisLocalV2.flipper_ s in
  exists s',
    MetropolisLocalV2.Next s = (Ok tt, s')
    /\ forall j,
         MetropolisLocalV2.accept_ s' !! j = Some true ->
         exists row site v p,
           Flipper.state_ f !! j = Some row
           /\ Flipper.sites_ f !! j = Some site
           /\ Flipper.values_ f !! j = Some v
           /\ y !! j = Some p
           /\ Flipper.state_ (MetropolisLocalV2.flipper_ s') !! j
              = Some (<[Z.to_nat site := v]> row)
           /\ MetropolisLocalV2.proposed_X_ s' !! j
              = Some (<[Z.to_nat site := v]> row)
           /\ MetropolisLocalV2.current_Y_ s' !! j = Some p.
Proof.
  intros Hlaws Ho Hr Hy f.
  destruct (reachable_swf Hlaws m batch_size s Ho Hr) as [Hm Hs].
  rewrite <- Hm in Hy.
  destruct (Next_returns Hlaws _ _ _ s y Hs Hy) as (s' & E & Hst & Hs').
  exists s'. split; [done|]. intros j Ha.
  destruct (stepped_chain _ _ _ s s' y j true Hs Hs' Hst Ha)
    as (row & p & c & Hrow & Hp & Hc & Hrow' & Hc').
  pose proof Hs as [_ Hf _ _ _ _]. fold f in Hf, Hrow, Hrow'. destruct Hf.
  pose proof (lookup_lt_Some _ _ _ Hrow) as Hj.
  destruct wf_state0 as [Hrows _].
  destruct (lookup_lt_is_Some_2 (Flipper.sites_ f) j) as [site Hsite];
    [lia|].
  destruct (lookup_lt_is_Some_2 (Flipper.values_ f) j) as [v Hv]; [lia|].
  assert (Hprop : proposed_row f j row = <[Z.to_nat site := v]> row)
    by (unfold proposed_row; by rewrite Hsite, Hv).
  exists row, site, v, p. rewrite <- Hprop.
  split; [done|]. split; [done|]. split; [done|]. split; [done|].
  split; [done|]. split; [|done].
  destruct Hst. rewrite stepped_proposed_X0. fold f.
  unfold proposed_matrix. by rewrite list_lookup_imap, Hrow.
Qed.

Lemma accepted_chains_committed_witness :
  exists s s',
    MetropolisLocalV2.MetropolisLocalV2 zero_machine 2 (0 : Z) = Ok s
    /\ MetropolisLocalV2.Next s = (Ok tt, s')
    /\ forall j,
         MetropolisLocalV2.accept_ s' !! j = Some true ->
         Flipper.state_ (MetropolisLocalV2.flipper_ s') !! j
         = MetropolisLocalV2.proposed_X_ s' !! j.
Proof.
  assert (E : exists s,
            MetropolisLocalV2.MetropolisLocalV2 zero_machine 2 (0 : Z) = Ok s)
    by (eexists; vm_compute; reflexivity).
  destruct E as [s E]. exists s.
  destruct (accepted_chains_committed zero_machine 2 s
              ((fun _ => czero)
                 <$> proposed_matrix (MetropolisLocalV2.flipper_ s))
              counter_source_laws
              (pure_oracle_keeps_size _ _ zero_machine_pure)
              (reachable_new zero_machine 2 0 s E) eq_refl)
    as (s' & En & Hacc).
  exists s'. split; [exact E|]. split; [exact En|].
  intros j Ha.
  destruct (Hacc j Ha) as (row & site & v & p & _ & _ & _ & _ & E1 & E2 & _).
  rewrite E1, E2. reflexivity.
Defined.

(** ** What Reset and Next never do *)

(** X9: from a reachable state neither Reset nor Next runs into
    undefined behaviour (no draw from an inverted range, no index out
    of bounds, no failed assertion), and neither raises an exception of
    its own: whatever Next or Reset throws is an exception the oracle
    threw in the one call they make to it. *)
Theorem only_oracle_exceptions {G} `{RandomSource G} (m : Machine)
    (batch_size : Z) (s : MetropolisLocalV2.t G) :
  RandomSourceLaws G -> LogVal_keeps_size m -> reachable m batch_size s ->
  (MetropolisLocalV2.Reset s).1 <> Undefined
  /\ (MetropolisLocalV2.Next s).1 <> Undefined
  /\ (forall e,
        (MetropolisLocalV2.Next s).1 = Throw e ->
        exists y,
          LogVal m (proposed_matrix (MetropolisLocalV2.flipper_ s))
                 (MetropolisLocalV2.proposed_Y_ s) = (Some e, y))
  /\ (forall e,
        (MetropolisLocalV2.Reset s).1 = Throw e ->
        exists f' y,
          Flipper.Reset (MetropolisLocalV2.flipper_ s) = (Ok tt, f')
          /\ LogVal m (Flipper.state_ f') (MetropolisLocalV2.current_Y_ s)
             = (Some e, y)).
Proof.
  intros Hlaws Ho Hr.
  destruct (reachable_swf Hlaws m batch_size s Ho Hr) as [Hm Hs].
  assert (HN : (MetropolisLocalV2.Next s).1 <> Undefined
               /\ forall e,
                    (MetropolisLocalV2.Next s).1 = Throw e ->
                    exists y,
                      LogVal m
                        (proposed_matrix (MetropolisLocalV2.flipper_ s))
                        (MetropolisLocalV2.proposed_Y_ s) = (Some e, y)).
  { rewrite <- Hm.
    destruct (LogVal (MetropolisLocalV2.machine_ s)
                (proposed_matrix (MetropolisLocalV2.flipper_ s))
                (MetropolisLocalV2.proposed_Y_ s)) as [[e0|] y] eqn:Hy.
    - rewrite (Next_throws _ _ _ s e0 y Hs Hy). simpl.
      split; [done|]. intros e [= <-]. by exists y.
    - destruct (Next_returns Hlaws _ _ _ s y Hs Hy) as (s' & -> & _).
      by split. }
  assert (HR : (MetropolisLocalV2.Reset s).1 <> Undefined
               /\ forall e,
                    (MetropolisLocalV2.Reset s).1 = Throw e ->
                    exists f' y,
                      Flipper.Reset (MetropolisLocalV2.flipper_ s)
                      = (Ok tt, f')
                      /\ LogVal m (Flipper.state_ f')
                                (MetropolisLocalV2.current_Y_ s)
                         = (Some e, y)).
  { pose proof Hs as [_ Hf _ _ _ _]. pose proof Hf as Hf'. destruct Hf'.
    destruct (returns_eq _ _ _
      (Reset_returns Hlaws _ _ (MetropolisLocalV2.flipper_ s)
         (fun _ f' => True)
         wf_batch0 wf_system0
         ltac:(by rewrite wf_local_states0) wf_state0 wf_sites0 wf_values0
         ltac:(done)))
      as ([] & f' & E & _).
    unfold MetropolisLocalV2.Reset.
    erewrite bind_Ok; [|unfold zoom; by rewrite E].
    erewrite bind_Ok by reflexivity. simpl.
    unfold MetropolisLocalV2.call_LogVal, Flipper.Current. simpl.
    rewrite Hm.
    destruct (LogVal m (Flipper.state_ f') (MetropolisLocalV2.current_Y_ s))
      as [[e0|] y] eqn:Hy; simpl.
    - split; [done|]. intros e [= <-]. by exists f', y.
    - by split. }
  destruct HN, HR. by split_and!.
Qed.

Lemma only_oracle_exceptions_witness :
  exists s,
    MetropolisLocalV2.MetropolisLocalV2 picky_machine 1 (0 : Z) = Ok s
    /\ (MetropolisLocalV2.Next s).1 <> Undefined
    /\ (MetropolisLocalV2.Reset s).1 <> Undefined.
Proof.
  assert (E : exists s,
            MetropolisLocalV2.MetropolisLocalV2 picky_machine 1 (0 : Z)
            = Ok s)
    by (eexists; vm_compute; reflexivity).
  destruct E as [s E]. exists s. split; [exact E|].
  destruct (only_oracle_exceptions picky_machine 1 s counter_source_laws
              picky_machine_keeps_size
              (reachable_new picky_machine 1 0 s E))
    as (HR & HN & _).
  split; [exact HN | exact HR].
Defined.

(** ** Buffer sizes *)

Lemma accept_length_reachable {G} `{RandomSource G}
    (Hlaws : RandomSourceLaws G) (m : Machine) (batch_size : Z)
    (s : MetropolisLocalV2.t G) :
  LogVal_keeps_size m -> reachable m batch_size s ->
  length (MetropolisLocalV2.accept_ s) = Z.to_nat batch_size.
Proof.
  intros Ho Hr. induction Hr as [g s E|s Hr IH|s Hr IH].
  - apply new_Ok_inv in E as (f & y & _ & _ & ->). simpl.
    by rewrite length_replicate.
  - destruct (reachable_swf Hlaws m batch_size s Ho Hr) as [_ Hs].
    by destruct (Reset_run Hlaws _ _ _ s Hs) as (f' & _ & ->).
  - destruct (reachable_swf Hlaws m batch_size s Ho Hr) as [_ Hs].
    destruct (LogVal (MetropolisLocalV2.machine_ s)
                (proposed_matrix (MetropolisLocalV2.flipper_ s))
                (MetropolisLocalV2.proposed_Y_ s)) as [[e|] y] eqn:Hy.
    + by rewrite (Next_throws _ _ _ s e y Hs Hy).
    + destruct (Next_returns Hlaws _ _ _ s y Hs Hy) as (s' & -> & Hst & Hs').
      simpl. exact (stepped_accept_length _ _ _ s s' y Hs Hs' Hst).
Qed.

(** X10: in every reachable state, also after a call in which the
    oracle threw, the sampler still refers to the machine it was built
    on and all its buffers have the sizes the constructor gave them:
    the configuration and proposed_X_ are batch_size x Nvisible, and
    sites_, values_, proposed_Y_, current_Y_, randoms_ and accept_ have
    batch_size entries; so Read() returns a matrix and a vector of
    matching sizes. *)
Theorem buffers_keep_size {G} `{RandomSource G} (m : Machine)
    (batch_size : Z) (s : MetropolisLocalV2.t G) :
  RandomSourceLaws G -> LogVal_keeps_size m -> reachable m batch_size s ->
  let n := Z.to_nat batch_size in
  let f := MetropolisLocalV2.flipper_ s in
  1 <= batch_size /\ 1 <= Nvisible m
  /\ MetropolisLocalV2.machine_ s = m
  /\ shaped n (Z.to_nat (Nvisible m)) (MetropolisLocalV2.Read s).1
  /\ length (MetropolisLocalV2.Read s).2 = n
  /\ shaped n (Z.to_nat (Nvisible m)) (MetropolisLocalV2.proposed_X_ s)
  /\ length (MetropolisLocalV2.proposed_Y_ s) = n
  /\ length (MetropolisLocalV2.randoms_ s) = n
  /\ length (MetropolisLocalV2.accept_ s) = n
  /\ length (Flipper.sites_ f) = n
  /\ length (Flipper.values_ f) = n
  /\ Flipper.BatchSize f = batch_size
  /\ Flipper.SystemSize f = Nvisible m.
Proof.
  intros Hlaws Ho Hr n f.
  pose proof (accept_length_reachable Hlaws m batch_size s Ho Hr) as Hacc.
  destruct (reachable_swf Hlaws m batch_size s Ho Hr) as [Hm Hs].
  destruct Hs as [_ Hf HX HpY HcY Hrs]. fold f in Hf. destruct Hf.
  unfold Flipper.BatchSize, Flipper.SystemSize.
  rewrite (shaped_rows _ _ _ wf_state0),
    (shaped_cols _ _ _ wf_state0 wf_batch0).
  subst n. split_and!; try done; lia.
Qed.

Lemma buffers_keep_size_witness :
  exists s,
    MetropolisLocalV2.MetropolisLocalV2 picky_machine 1 (0 : Z) = Ok s
    /\ length (MetropolisLocalV2.accept_ (MetropolisLocalV2.Next s).2)
       = 1%nat.
Proof.
  assert (E : exists s,
            MetropolisLocalV2.MetropolisLocalV2 picky_machine 1 (0 : Z)
            = Ok s)
    by (eexists; vm_compute; reflexivity).
  destruct E as [s E]. exists s. split; [exact E|].
  destruct (buffers_keep_size picky_machine 1 _ counter_source_laws
              picky_machine_keeps_size
              (reachable_Next _ _ _ (reachable_new picky_machine 1 0 s E)))
    as (_ & _ & _ & _ & _ & _ & _ & _ & Hacc & _).
  exact Hacc.
Defined.

(** ** Duplicated local states *)

(** X11: the index shift relies on the alphabet having no duplicates.
    On any alphabet in which a value c (not NaN) occurs twice in a row,
    as duplicates do after the constructor's sort, the index of the
    first copy lies in the range drawn from, and drawing it while the
    current value is c proposes c again: a self-transition. *)
Theorem duplicate_allows_self_transition (l1 l2 : list double)
    (c : double) :
  c <> S754_nan ->
  let ls := (l1 ++ c :: c :: l2)%list in
  0 <= Z.of_nat (length l1) <= Z.of_nat (length ls) - 2
  /\ Flipper.shifted_value ls c (Z.of_nat (length l1)) = Ok c.
Proof.
  intros Hc ls. split.
  - subst ls. rewrite length_app. simpl. lia.
  - unfold Flipper.shifted_value.
    assert (at_ ls (Z.of_nat (length l1)) = Ok c) as ->.
    { apply at_of_nat. subst ls. by rewrite list_lookup_middle. }
    rewrite dge_refl by done.
    replace (Z.of_nat (length l1) + 1) with (Z.of_nat (S (length l1)))
      by lia.
    apply at_of_nat. subst ls.
    rewrite lookup_app_r by lia.
    by replace (S (length l1) - length l1)%nat with 1%nat by lia.
Qed.

Lemma duplicate_allows_self_transition_witness :
  Flipper.shifted_value [minus_one; one; one] one 1 = Ok one.
Proof.
  exact (proj2 (duplicate_allows_self_transition [minus_one] [] one
                  ltac:(discriminate))).
Defined.

(** ** Detailed balance *)


(** ** The mask of [Flipper::Next] *)

Lemma Flipper_Next_unfold {G} `{RandomSource G} (accept : list bool) :
  Flipper.Next (G := G) accept
  = (do n <- gets Flipper.BatchSize;
     do_ for_range 0 n (commit_chain accept);
     do_ Flipper.RandomSites;
     Flipper.RandomValues).
Proof. reflexivity. Qed.

Lemma commit_chain_ext {G} (accept accept' : list bool) (j : Z)
    (f : Flipper.t G) :
  at_ accept j = at_ accept' j ->
  commit_chain accept j f = commit_chain accept' j f.
Proof. intros E. unfold commit_chain. by rewrite E. Qed.

Lemma committed_take {G} (accept : list bool) (f : Flipper.t G) :
  committed (take (length (Flipper.state_ f)) accept) f = committed accept f.
Proof.
  unfold committed. apply list_eq. intros j. rewrite !list_lookup_imap.
  destruct (Flipper.state_ f !! j) as [row|] eqn:Hrow; [|done]. simpl.
  unfold row_after. apply lookup_lt_Some in Hrow.
  by rewrite lookup_take_lt.
Qed.

(** X13: Next(accept) of the chain state reads the mask at the indices
    0 .. batch_size-1 only. With a mask of fewer than batch_size entries
    the call indexes the mask out of range (undefined behaviour); with a
    mask of at least batch_size entries it returns, the entries past
    batch_size are ignored, and the configuration becomes the one
    committed under the mask. *)
Theorem Flipper_Next_mask_length {G} `{RandomSource G} (m : Machine)
    (batch_size : Z) (s : MetropolisLocalV2.t G) (accept : list bool) :
  RandomSourceLaws G -> LogVal_keeps_size m -> reachable m batch_size s ->
  let f := MetropolisLocalV2.flipper_ s in
  let n := Z.to_nat batch_size in
  ((length accept < n)%nat -> (Flipper.Next accept f).1 = Undefined)
  /\ ((n <= length accept)%nat ->
        Flipper.Next accept f = Flipper.Next (take n accept) f
        /\ exists f',
             Flipper.Next accept f = (Ok tt, f')
             /\ Flipper.state_ f' = committed accept f).
Proof.
  intros Hlaws Ho Hr f n.
  destruct (reachable_swf Hlaws m batch_size s Ho Hr) as [_ [_ Hf _ _ _ _]].
  fold f n in Hf. pose proof Hf as Hf'. destruct Hf'.
  pose proof wf_state0 as [Hrows _].
  assert (Hbs : Flipper.BatchSize f = Z.of_nat n)
    by (unfold Flipper.BatchSize; exact (shaped_rows _ _ _ wf_state0)).
  assert (Hloop : forall acc, length acc = n ->
            exists f1 f',
              for_loop n 0 (commit_chain acc) f = (Ok tt, f1)
              /\ Flipper.Next acc f = (Ok tt, f')
              /\ Flipper.state_ f' = committed acc f).
  { intros acc Hacc.
    destruct (returns_eq _ _ _
      (Flipper_Next_returns Hlaws n _ _ acc f
         (fun _ f' => Flipper.state_ f' = committed acc f) Hf Hacc
         (fun f1 f' _ Hst1 _ Hst' => eq_trans Hst' Hst1)))
      as ([] & f' & E & Hst).
    pose proof E as E0. rewrite Flipper_Next_unfold in E0.
    apply bind_Ok_inv in E0 as (k & f0 & [= <- <-] & E0).
    apply bind_Ok_inv in E0 as ([] & f1 & E1 & _).
    unfold for_range in E1. rewrite Hbs, Z.sub_0_r, Nat2Z.id in E1.
    by exists f1, f'. }
  split.
  - intros Hshort.
    set (acc := (accept ++ replicate (n - length accept) false)%list).
    destruct (Hloop acc) as (f1 & _ & E1 & _).
    { subst acc. rewrite length_app, length_replicate. lia. }
    replace n with (length accept + S (n - length accept - 1))%nat in E1
      by lia.
    rewrite for_loop_app in E1.
    apply bind_Ok_inv in E1 as ([] & f0 & E0 & _).
    rewrite (for_loop_ext _ _ _ (commit_chain accept)) in E0.
    2:{ intros i f2 Hi. apply commit_chain_ext. subst acc.
        apply at_app_l. lia. }
    rewrite Flipper_Next_unfold.
    rewrite (bind_Ok _ _ f f (Flipper.BatchSize f)) by done.
    erewrite bind_Undefined; [done|].
    unfold for_range. rewrite Hbs, Z.sub_0_r, Nat2Z.id.
    replace n with (length accept + S (n - length accept - 1))%nat at 1
      by lia.
    rewrite for_loop_app, (bind_Ok _ _ _ _ _ E0). simpl.
    apply bind_Undefined. unfold commit_chain.
    apply bind_Undefined. unfold of_outcome.
    by rewrite at_beyond by lia.
  - intros Hlong.
    assert (Eext : Flipper.Next accept f = Flipper.Next (take n accept) f).
    { rewrite !Flipper_Next_unfold. unfold bind at 1 3. simpl.
      unfold bind at 1 3.
      assert (for_range 0 (Flipper.BatchSize f) (commit_chain accept) f
              = for_range 0 (Flipper.BatchSize f)
                  (commit_chain (take n accept)) f) as ->; [|done].
      apply for_loop_ext. intros i f2 Hi. apply commit_chain_ext.
      symmetry. apply at_take. lia. }
    split; [done|]. rewrite Eext.
    destruct (Hloop (take n accept)) as (f1 & f' & _ & E & Hst).
    { rewrite length_take. lia. }
    exists f'. split; [done|].
    rewrite Hst, <- Hrows. apply committed_take.
Qed.

Lemma Flipper_Next_mask_length_witness :
  exists s,
    MetropolisLocalV2.MetropolisLocalV2 zero_machine 2 (0 : Z) = Ok s
    /\ (Flipper.Next [true] (MetropolisLocalV2.flipper_ s)).1 = Undefined
    /\ Flipper.Next [true; false; true] (MetropolisLocalV2.flipper_ s)
       = Flipper.Next [true; false] (MetropolisLocalV2.flipper_ s).
Proof.
  assert (E : exists s,
            MetropolisLocalV2.MetropolisLocalV2 zero_machine 2 (0 : Z) = Ok s)
    by (eexists; vm_compute; reflexivity).
  destruct E as [s E]. exists s. split; [exact E|].
  split.
  - apply (Flipper_Next_mask_length zero_machine 2 s [true]
             counter_source_laws
             (pure_oracle_keeps_size _ _ zero_machine_pure)
             (reachable_new zero_machine 2 0 s E)).
    simpl. lia.
  - apply (Flipper_Next_mask_length zero_machine 2 s [true; false; true]
             counter_source_laws
             (pure_oracle_keeps_size _ _ zero_machine_pure)
             (reachable_new zero_machine 2 0 s E)).
    simpl. lia.
Defined.

(** ** Bounds of the index shift *)

(** X14: why the index is drawn from [0, k-2]. On any alphabet of k
    values (sorted or not, with or without duplicates, containing the
    current value or not) an index in [0, k-2] makes the shift read
    inside the alphabet and return one of its values; a negative index
    or an index >= k reads out of range; and the index k-1 is in range
    only as long as the last value is not >= the current one. *)
Theorem shifted_value_bounds (ls : list double) (cur : double) (idx : Z) :
  let k := Z.of_nat (length ls) in
  (0 <= idx <= k - 2 ->
     exists v, Flipper.shifted_value ls cur idx = Ok v /\ v ∈ ls)
  /\ (idx < 0 \/ k <= idx -> Flipper.shifted_value ls cur idx = Undefined)
  /\ (forall e, Flipper.shifted_value ls cur idx <> Throw e)
  /\ (forall last, idx = k - 1 -> ls !! Z.to_nat idx = Some last ->
        0 <= idx ->
        Flipper.shifted_value ls cur idx
        = if dge last cur then Undefined else Ok last).
Proof.
  intros k. split; [apply shifted_value_total|]. split; [|split].
  - intros Hout. unfold Flipper.shifted_value.
    destruct Hout as [Hneg|Hbig].
    + unfold at_. by destruct (Z.ltb_spec idx 0); [|lia].
    + by rewrite at_beyond by (subst k; lia).
  - intros e. apply shifted_value_no_throw.
  - intros last Hidx Hlast Hpos. unfold Flipper.shifted_value.
    assert (at_ ls idx = Ok last) as ->
      by (apply at_Ok; split; [lia | done]).
    destruct (dge last cur).
    + apply at_beyond. subst k. lia.
    + rewrite Z.add_0_r. apply at_Ok. split; [lia | done].
Qed.

(** X15: the index shift is the transformation drawn in the comment of
    RandomValues. On a strictly ascending alphabet in which the current
    value sits at position p, a drawn index below p selects the value at
    that index, a drawn index from p on selects the value at the next
    index; consequently the proposed value is strictly increasing in
    the drawn index. *)
Theorem index_shift_skips_current (ls : list double) (cur : double)
    (p : nat) :
  strictly_ascending ls -> ls !! p = Some cur ->
  (forall idx, 0 <= idx <= Z.of_nat (length ls) - 2 ->
     Flipper.shifted_value ls cur idx
     = at_ ls (if idx <? Z.of_nat p then idx else idx + 1))
  /\ (forall i i' v v',
        0 <= i -> i < i' -> i' <= Z.of_nat (length ls) - 2 ->
        Flipper.shifted_value ls cur i = Ok v ->
        Flipper.shifted_value ls cur i' = Ok v' ->
        dlt v v' = true).
Proof.
  intros Hasc Hp. split.
  - intros idx Hidx.
    destruct (shifted_value_skip ls Hasc p (Z.to_nat idx) cur Hp)
      as (v & Hv & E); [lia|].
    rewrite Z2Nat.id in E by lia. rewrite E. symmetry.
    apply at_Ok. unfold skip in Hv.
    destruct (Nat.ltb_spec (Z.to_nat idx) p), (Z.ltb_spec idx (Z.of_nat p));
      try lia.
    + split; [lia | done].
    + split; [lia|]. by replace (Z.to_nat (idx + 1)) with (S (Z.to_nat idx))
        by lia.
  - intros i i' v v' Hi Hlt Hi' E E'.
    apply (shifted_value_lookup ls p) in E; [|done|done|lia].
    apply (shifted_value_lookup ls p) in E'; [|done|done|lia].
    apply (ascending_lookup_lt ls (skip p (Z.to_nat i))
             (skip p (Z.to_nat i'))); [done | | done | done].
    unfold skip.
    destruct (Nat.ltb_spec (Z.to_nat i) p), (Nat.ltb_spec (Z.to_nat i') p);
      lia.
Qed.

Lemma index_shift_skips_current_witness :
  Flipper.shifted_value [minus_one; one] minus_one 0 = at_ [minus_one; one] 1.
Proof.
  assert (Hasc : strictly_ascending [minus_one; one]).
  { repeat constructor. }
  exact (proj1 (index_shift_skips_current [minus_one; one] minus_one 0%nat
                  Hasc eq_refl) 0 ltac:(simpl; lia)).
Defined.
